(** * Abydos: tokenizers, token statistics, distances and the count fingerprint

    A shallow embedding of

    - [abydos/tokenizer/_saps.py]      ([SAPSTokenizer]),
    - [abydos/tokenizer/_legalipy.py]  ([LegaliPyTokenizer]),
    - [abydos/fingerprint/_count.py]   ([Count]),
    - [abydos/distance/_lorentzian.py] ([Lorentzian]),
    - [abydos/distance/_ncd_zlib.py]   ([NCDzlib]),

    followed by the properties proved about them.

    Python values are represented as follows.  A [str] is the list of its
    Unicode code points; an [int] is a [Z]; a list is a [list]; a [Counter]
    is an association list in insertion order, as a Python [dict] is; a
    [float] is an element of an abstract carrier (class [PyFloat]) since the
    distances only add floats, take [log1p] of an integer and divide two
    integers.  A call that can raise returns in [result]. *)

From Stdlib Require Import String Ascii.
From Stdlib Require Import Reals.
From Stdlib Require PrimFloat Uint63.
From Stdlib Require Import List Bool Arith NArith ZArith Lia Permutation.
Import ListNotations.

Set Implicit Arguments.

(* ===================================================================== *)
(** ** Python strings *)
(* ===================================================================== *)

Module Py.

(** A character is a Unicode code point. *)
Definition char := N.
Definition str := list char.

Definition char_eqb : char -> char -> bool := N.eqb.

Definition str_eq_dec : forall a b : str, {a = b} + {a <> b} :=
  list_eq_dec N.eq_dec.

Definition str_eqb (a b : str) : bool :=
  if str_eq_dec a b then true else false.

(** A string literal of the source, character by character. *)
Definition lit (s : string) : str :=
  map N_of_ascii (list_ascii_of_string s).
Arguments lit s%_string.

(** [w[i:j]] for non-negative [i] and [j]; out-of-range bounds are
    clamped, and [j <= i] gives the empty string. *)
Definition slice (w : str) (i j : nat) : str := firstn (j - i) (skipn i w).

(** [w[i:]] *)
Definition slice_from (w : str) (i : nat) : str := skipn i w.

(** [s[-1]], which raises [IndexError] on the empty string. *)
Definition last_item (s : str) : option char :=
  nth_error s (length s - 1).

(** [c.isspace()]: the code points on which [str.split()] separates. *)
Definition isspace (c : char) : bool :=
  ((9 <=? c) && (c <=? 13) || (28 <=? c) && (c <=? 32)
   || (c =? 133) || (c =? 160) || (c =? 5760)
   || (8192 <=? c) && (c <=? 8202)
   || (c =? 8232) || (c =? 8233) || (c =? 8239) || (c =? 8287)
   || (c =? 12288))%N.

(** [s.split()]: the maximal runs of non-space characters, in order.
    [cur] is the run being read. *)
Fixpoint split_from (cur : str) (s : str) : list str :=
  match s with
  | [] => match cur with [] => [] | _ => [cur] end
  | c :: rest =>
      if isspace c
      then match cur with
           | [] => split_from [] rest
           | _ => cur :: split_from [] rest
           end
      else split_from (cur ++ [c]) rest
  end.

Definition split (s : str) : list str := split_from [] s.

(** No character of [w] is a space: [w] is a word, or empty. *)
Definition no_space (w : str) : bool :=
  forallb (fun c => negb (isspace c)) w.

(** A [dict]-backed [Counter] over tokens: keys in insertion order, each
    key once. *)
Definition Counter := list (str * nat).

(** [c[k]]: a missing key counts 0. *)
Fixpoint get (c : Counter) (k : str) : nat :=
  match c with
  | [] => 0
  | (k', n) :: rest => if str_eqb k k' then n else get rest k
  end.

(** [c[k] += 1] *)
Fixpoint incr (c : Counter) (k : str) : Counter :=
  match c with
  | [] => [(k, 1)]
  | (k', n) :: rest =>
      if str_eqb k k' then (k', S n) :: rest else (k', n) :: incr rest k
  end.

(** [Counter(tokens)] *)
Definition counter_of (tokens : list str) : Counter :=
  fold_left incr tokens [].

(** [c.keys()] *)
Definition keys (c : Counter) : list str := map fst c.

(** [k in c] *)
Definition mem (c : Counter) (k : str) : bool :=
  existsb (str_eqb k) (keys c).

(** [a + b] on Counters: the keys of [a] in order, then the keys that
    only [b] has, each with the summed count; only positive counts are
    kept. *)
Definition add (a b : Counter) : Counter :=
  filter (fun kv => 0 <? snd kv)
         (map (fun kv => (fst kv, snd kv + get b (fst kv))) a)
  ++ filter (fun kv => negb (mem a (fst kv)) && (0 <? snd kv)) b.

End Py.

Import Py.

(* ===================================================================== *)
(** ** Results of calls that can raise *)
(* ===================================================================== *)

(** The exceptions the embedded code raises itself, and [External] for
    whatever a third-party function raises. *)
Inductive exn : Type :=
| TypeError (msg : string)
| ValueError (msg : string)
| ZeroDivisionError
| UnicodeEncodeError (position : nat)
| External (payload : string).

Inductive result (A : Type) : Type :=
| Ok (a : A)
| Raise (e : exn).

Arguments Ok {A} a.
Arguments Raise {A} e.

Definition bind {A B : Type} (r : result A) (k : A -> result B) : result B :=
  match r with
  | Ok a => k a
  | Raise e => Raise e
  end.

Notation "x <- r ;; k" := (bind r (fun x => k))
  (at level 61, r at next level, right associativity).

(* ===================================================================== *)
(** ** The tokenizer base class *)
(* ===================================================================== *)

Module Tokenizer.

(** The [scaler] argument of a tokenizer: [None], ['set'], or a callable
    applied to each count (here on integer counts, such as an index into
    an integer sequence). *)
Inductive Scaler : Type :=
| ScalerNone
| ScalerSet
| ScalerFun (f : nat -> nat).

(** The fields of a tokenizer object. *)
Record t : Type := mk {
  _scaler : Scaler;
  _string : str;
  _ordered_list : list str;
  _tokens : Counter
}.

(** Modelled from the spec: the ['set'] scaling function of the base class
    [_Tokenizer] (module [_tokenizer], not in the source tree), "map every
    positive count to 1 (binarization)"; a zero count stays 0. *)
Definition binarize (n : nat) : nat :=
  match n with
  | O => 0
  | S _ => 1
  end.

(** Modelled from the spec: the scaling step of [_Tokenizer], "applied
    independently to each count in the mapping post-tokenization; None =
    identity, "set" = map every positive count to 1, or an arbitrary
    numeric function supplied by the caller". *)
Definition scale (sc : Scaler) (c : Counter) : Counter :=
  match sc with
  | ScalerNone => c
  | ScalerSet => map (fun kv => (fst kv, binarize (snd kv))) c
  | ScalerFun f => map (fun kv => (fst kv, f (snd kv))) c
  end.

(** Modelled from the spec: [_Tokenizer.__init__(scaler)], which is not in
    the source tree: the scaler is stored, nothing is tokenized yet. *)
Definition init (scaler : Scaler) : t :=
  {| _scaler := scaler; _string := []; _ordered_list := []; _tokens := [] |}.

(** Modelled from the spec: [_Tokenizer.tokenize()] without argument, which
    the subclasses call once [_ordered_list] is set: the token-to-count
    mapping of the ordered token sequence, with the configured scaling
    applied to each count. *)
Definition tokenize (self : t) : t :=
  {| _scaler := _scaler self;
     _string := _string self;
     _ordered_list := _ordered_list self;
     _tokens := scale (_scaler self) (counter_of (_ordered_list self)) |}.

(** [get_list()] and [get_counter()] *)
Definition get_list (self : t) : list str := _ordered_list self.
Definition get_counter (self : t) : Counter := _tokens self.

End Tokenizer.

(* ===================================================================== *)
(** ** [SAPSTokenizer] *)
(* ===================================================================== *)

Module SAPS.

(** [_vowels = set('aeiouyAEIOUY')] *)
Definition _vowels : list str :=
  map (fun c => [c]) (lit "aeiouyAEIOUY").

(** [x in _vowels] for a string [x] *)
Definition in_vowels (x : str) : bool := existsb (str_eqb x) _vowels.

(** The inner loop
    [while w[i : i + 1] in _vowels: syll += w[i : i + 1]; i += 1].
    Without fuel left it has no result. *)
Fixpoint absorb_vowels (fuel : nat) (w syll : str) (i : nat)
  : option (str * nat) :=
  if in_vowels (slice w i (i + 1))
  then match fuel with
       | O => None
       | S fuel' => absorb_vowels fuel' w (syll ++ slice w i (i + 1)) (i + 1)
       end
  else Some (syll, i).

(** The condition of the [if] that closes a syllable with a consonant. *)
Definition takes_coda (w syll : str) (i : nat) : option bool :=
  match last_item syll with
  | None => None
  | Some l =>
      Some (in_vowels [l]
            && (((1 <? length (slice_from w i))
                 && negb (in_vowels (slice w i (i + 1)))
                 && negb (in_vowels (slice w (i + 1) (i + 2))))
                || ((length (slice_from w i) =? 1)
                    && negb (in_vowels (slice w i (i + 1))))))
  end.

(** One pass through the body of [while i < len(w)]. *)
Definition syllable (w : str) (i : nat) : option (str * nat) :=
  let syll := slice w i (i + 1) in
  let i := i + 1 in
  match absorb_vowels (length w) w syll i with
  | None => None
  | Some (syll, i) =>
      match takes_coda w syll i with
      | None => None
      | Some true => Some (syll ++ slice w i (i + 1), i + 1)
      | Some false => Some (syll, i)
      end
  end.

(** [while i < len(w): ...; self._ordered_list.append(syll)] *)
Fixpoint while_syllables (fuel : nat) (w : str) (i : nat)
         (ordered_list : list str) : option (list str) :=
  if i <? length w
  then match fuel with
       | O => None
       | S fuel' =>
           match syllable w i with
           | None => None
           | Some (syll, i) =>
               while_syllables fuel' w i (ordered_list ++ [syll])
           end
       end
  else Some ordered_list.

(** The body of [for w in words]: the ordered list is emptied, then
    filled with the syllables of [w]. *)
Definition for_body (ordered_list : list str) (w : str)
  : option (list str) :=
  let ordered_list : list str := [] in
  let i := 0 in
  while_syllables (length w) w i ordered_list.

Fixpoint for_words (words : list str) (ordered_list : list str)
  : option (list str) :=
  match words with
  | [] => Some ordered_list
  | w :: words' =>
      match for_body ordered_list w with
      | None => None
      | Some ordered_list => for_words words' ordered_list
      end
  end.

(** [SAPSTokenizer(scaler)] *)
Definition init (scaler : Tokenizer.Scaler) : Tokenizer.t :=
  Tokenizer.init scaler.

(** [SAPSTokenizer.tokenize(string)]; [None] when a loop has no result
    or an index is out of range. *)
Definition tokenize (self : Tokenizer.t) (string : str)
  : option Tokenizer.t :=
  let words := split string in
  match for_words words [] with
  | None => None
  | Some ordered_list =>
      Some (Tokenizer.tokenize
              {| Tokenizer._scaler := Tokenizer._scaler self;
                 Tokenizer._string := string;
                 Tokenizer._ordered_list := ordered_list;
                 Tokenizer._tokens := Tokenizer._tokens self |})
  end.

End SAPS.

(* ===================================================================== *)
(** ** The syllable rule in the words of the documentation *)
(* ===================================================================== *)

Module SyllableRule.

(** The vowels: a, e, i, o, u, y in either case. *)
Definition is_vowel (c : char) : bool :=
  existsb (char_eqb c) (lit "aeiouyAEIOUY").

(** The vowels that immediately follow, and what is left of the word. *)
Fixpoint leading_vowels (s : str) : str * str :=
  match s with
  | [] => ([], [])
  | c :: rest =>
      if is_vowel c
      then let (vs, rest') := leading_vowels rest in (c :: vs, rest')
      else ([], s)
  end.

(** The rest of the word starts with a consonant that is followed by
    the end of the word or by another consonant. *)
Definition coda_follows (rest : str) : bool :=
  match rest with
  | [] => false
  | [k] => negb (is_vowel k)
  | k :: k2 :: _ => negb (is_vowel k) && negb (is_vowel k2)
  end.

(** The part of a syllable read so far ends in a vowel. *)
Definition ends_in_vowel (body : str) : bool :=
  match rev body with
  | [] => false
  | l :: _ => is_vowel l
  end.

(** When a closing consonant may be absorbed at all: [always] is the
    rule as the documentation words it, [ends_in_vowel] asks in
    addition that the syllable read so far ends in a vowel. *)
Definition always (body : str) : bool := true.

(** The first syllable of a word and the rest of the word: the
    syllable begins at the first character, absorbs the vowels that
    immediately follow, then one closing consonant when [coda_ok]
    allows it and [coda_follows] holds. *)
Definition first_syllable (coda_ok : str -> bool) (w : str)
  : option (str * str) :=
  match w with
  | [] => None
  | c :: rest =>
      let (vs, rest1) := leading_vowels rest in
      let body := c :: vs in
      match rest1 with
      | k :: rest2 =>
          if coda_ok body && coda_follows rest1
          then Some (body ++ [k], rest2)
          else Some (body, rest1)
      | [] => Some (body, [])
      end
  end.

(** [splits coda_ok w l]: [l] lists the syllables of [w] from left to
    right. *)
Inductive splits (coda_ok : str -> bool) : str -> list str -> Prop :=
| splits_nil : splits coda_ok [] []
| splits_cons (w syll rest : str) (l : list str) :
    first_syllable coda_ok w = Some (syll, rest) ->
    splits coda_ok rest l ->
    splits coda_ok w (syll :: l).

End SyllableRule.

(* ===================================================================== *)
(** ** Vocabulary for statements about syllables *)
(* ===================================================================== *)

Module Syllable.

(** A consonant is any character that is not a vowel. *)
Definition consonant (c : char) : bool := negb (SyllableRule.is_vowel c).

(** Two consonants stand side by side somewhere in [s]. *)
Fixpoint has_consonant_pair (s : str) : bool :=
  match s with
  | c :: ((d :: _) as rest) =>
      consonant c && consonant d || has_consonant_pair rest
  | _ => false
  end.

(** The upper-case form of an ASCII letter; other characters are kept. *)
Definition upper (c : char) : char :=
  (if (97 <=? c) && (c <=? 122) then c - 32 else c)%N.

End Syllable.

(* ===================================================================== *)
(** ** [LegaliPyTokenizer] *)
(* ===================================================================== *)

Module LegaliPy.

Section WithThreshold.

(** The type of the [threshold] argument, a float that is only handed
    on to SyllabiPy. *)
Variable threshold_t : Type.

(** What [from syllabipy.legalipy import getOnsets, LegaliPy] binds.
    Both functions belong to the SyllabiPy package. *)
Record syllabipy : Type := {
  getOnsets : str -> threshold_t -> bool -> result (list str);
  LegaliPy : str -> list str -> result (list str)
}.

(** The module globals after the [try ... except ImportError]: both
    names are bound to the functions, or both are [None]. *)
Definition globals : Type := option syllabipy.

(** A tokenizer object with its onset list. *)
Record t : Type := mk {
  base : Tokenizer.t;
  _onsets : list str
}.

Variable G : globals.

(** [LegaliPyTokenizer(scaler)] *)
Definition init (scaler : Tokenizer.Scaler) : result t :=
  match G with
  | None =>
      Raise (TypeError
        "LegaliPy tokenizer requires installation of SyllabiPy package.")
  | Some _ =>
      Ok {| base := Tokenizer.init scaler; _onsets := [ [] ] |}
  end.

(** The order in which Python iterates over a set that holds the given
    strings.  It follows the hashes of the strings, which change from one
    run to the next, so it is left open; see [set_iteration_keeps] in the
    properties for what is assumed of it. *)
Variable set_iteration : list str -> list str.

(** [list(set(l))]: each element once, in the order of the set. *)
Definition list_set (l : list str) : list str :=
  set_iteration (nodup str_eq_dec l).

(** [train_onsets(text, threshold, clean, append)]; calling a name
    that is bound to [None] raises [TypeError]. *)
Definition train_onsets (self : t) (text : str) (threshold : threshold_t)
           (clean append : bool) : result t :=
  match G with
  | None => Raise (TypeError "'NoneType' object is not callable")
  | Some lib =>
      new_onsets <- getOnsets lib text threshold clean ;;
      if append
      then Ok {| base := base self;
                 _onsets := list_set (_onsets self ++ new_onsets) |}
      else Ok {| base := base self; _onsets := new_onsets |}
  end.

(** [tokenize(string, ipa)] *)
Definition tokenize (self : t) (string : str) (ipa : bool) : result t :=
  match G with
  | None => Raise (TypeError "'NoneType' object is not callable")
  | Some lib =>
      ordered_list <- LegaliPy lib string (_onsets self) ;;
      Ok {| base :=
              Tokenizer.tokenize
                {| Tokenizer._scaler := Tokenizer._scaler (base self);
                   Tokenizer._string := string;
                   Tokenizer._ordered_list := ordered_list;
                   Tokenizer._tokens := Tokenizer._tokens (base self) |};
            _onsets := _onsets self |}
  end.

End WithThreshold.

End LegaliPy.

(* ===================================================================== *)
(** ** [Count], the count fingerprint *)
(* ===================================================================== *)

Module Count.

Local Open Scope Z_scope.

(** A [Count] object.  [_most_common] lists the letters in use, most
    frequent first; its default [MOST_COMMON_LETTERS_CG] is defined in
    [_fingerprint], outside the source tree, so the list is always given
    explicitly here. *)
Record t : Type := mk {
  _n_bits : Z;
  _most_common : list char
}.

(** [Count(n_bits, most_common)] *)
Definition init (n_bits : Z) (most_common : list char) : t :=
  {| _n_bits := n_bits; _most_common := most_common |}.

(** [Counter(word)[letter]] *)
Definition count (word : str) (letter : char) : Z :=
  Z.of_nat (count_occ N.eq_dec word letter).

(** [for letter in self._most_common: if n_bits: ... else: break],
    on the pair [(fingerprint, n_bits)]. *)
Fixpoint for_letters (most_common : list char) (word : str)
         (fingerprint n_bits : Z) : Z * Z :=
  match most_common with
  | [] => (fingerprint, n_bits)
  | letter :: most_common' =>
      if n_bits =? 0
      then (fingerprint, n_bits)
      else
        let fingerprint := Z.shiftl fingerprint 2 in
        let fingerprint := fingerprint + Z.land (count word letter) 3 in
        let n_bits := n_bits - 2 in
        for_letters most_common' word fingerprint n_bits
  end.

(** [fingerprint(word)]; a left shift by a negative count raises
    [ValueError]. *)
Definition fingerprint (self : t) (word : str) : result Z :=
  let n_bits := _n_bits self in
  let n_bits := if n_bits mod 2 =? 0 then n_bits else n_bits + 1 in
  let '(fingerprint, n_bits) :=
    for_letters (_most_common self) word 0 n_bits in
  if n_bits =? 0 then Ok fingerprint
  else if n_bits <? 0 then Raise (ValueError "negative shift count")
  else Ok (Z.shiftl fingerprint n_bits).

(** The width in bits that [fingerprint] works with: an odd [n_bits] is
    raised to the next even number. *)
Definition width (n_bits : Z) : Z := n_bits + n_bits mod 2.

(** The number of occurrences of [letter] in [word], counted on the word
    itself: the characters of the word that are equal to the letter. *)
Definition occurrences (word : str) (letter : char) : Z :=
  Z.of_nat (length (filter (fun c => (c =? letter)%N) word)).

(** The field that belongs to position [i] of the most-common list: the
    number of occurrences of that letter modulo 4, and 0 past the end of
    the list. *)
Definition field_at (most_common : list char) (word : str) (i : nat) : Z :=
  match nth_error most_common i with
  | Some letter => occurrences word letter mod 4
  | None => 0
  end.

(** The number whose base-4 digits, most significant first, are
    [digits]. *)
Definition push_digit4 (acc d : Z) : Z := 4 * acc + d.

Definition of_digits4 (digits : list Z) : Z :=
  fold_left push_digit4 digits 0.

(** The 2-bit fields of a fingerprint of [n_bits] bits: one per letter
    of the first [n_bits / 2] most common letters, holding the number of
    its occurrences modulo 4, then zeros up to [n_bits / 2] fields. *)
Definition fields (n_bits : Z) (most_common : list char) (word : str)
  : list Z :=
  let n := Z.to_nat (n_bits / 2) in
  let letters := firstn n most_common in
  map (fun letter => occurrences word letter mod 4) letters
  ++ repeat 0 (n - length letters).

End Count.

(* ===================================================================== *)
(** ** Floats *)
(* ===================================================================== *)

(** What the distances need of Python's floats.  [zero] is [0.0], which
    is also what the integer [0] that [sum] starts from becomes in its
    first addition; [log1p n] is [math.log1p(n)] for an integer [n];
    [truediv a b] is [a / b] for integers with [b] non-zero.  The two
    laws hold of IEEE 754 arithmetic; addition is not assumed to be
    associative or commutative. *)
Class PyFloat : Type := {
  float : Type;
  zero : float;
  fadd : float -> float -> float;
  log1p : Z -> float;
  truediv : Z -> Z -> float;
  log1p_0 : log1p 0 = zero;
  fadd_0_0 : fadd zero zero = zero
}.

(** Exact arithmetic on the reals, which rounds nothing, is one such
    structure. *)
Definition exact_float : PyFloat :=
  {| float := R;
     zero := 0%R;
     fadd := Rplus;
     log1p := fun n => ln (1 + IZR n);
     truediv := fun a b => (IZR a / IZR b)%R;
     log1p_0 := eq_trans (f_equal ln (Rplus_0_r 1)) ln_1;
     fadd_0_0 := Rplus_0_r 0 |}.

(** IEEE 754 binary64 arithmetic, the floats of CPython. *)
Module Binary64.

Import PrimFloat.

(** [math.log1p(n)] for the integers 0 to 5, as CPython returns it with the
    GNU C library (in hexadecimal, from [float.hex]).  At 1, 3, 4 and 5 it
    is the double nearest to the logarithm; at 2 it is the double just
    below the nearest one.  The table ends at 5: beyond it the value is
    not recorded here and is given as not-a-number, and nothing below
    evaluates it there. *)
Definition log1p_table (n : Z) : float :=
  match n with
  | 0%Z => 0%float
  | 1%Z => 0x1.62e42fefa39efp-1%float
  | 2%Z => 0x1.193ea7aad030ap+0%float
  | 3%Z => 0x1.62e42fefa39efp+0%float
  | 4%Z => 0x1.9c041f7ed8d33p+0%float
  | 5%Z => 0x1.cab0bfa2a2002p+0%float
  | _ => nan
  end.

(** [float(n)] for an integer below 2^53 in absolute value. *)
Definition of_int (n : Z) : float :=
  match n with
  | Zneg _ => opp (of_uint63 (Uint63.of_Z (Z.abs n)))
  | _ => of_uint63 (Uint63.of_Z n)
  end.

(** Binary64 addition and division, with the table for [log1p]. *)
Definition binary64 : PyFloat :=
  @Build_PyFloat float 0%float add log1p_table
    (fun a b => div (of_int a) (of_int b)) eq_refl eq_refl.

End Binary64.

(** [sum(xs)] *)
Definition fsum `{PyFloat} (xs : list float) : float :=
  fold_left fadd xs zero.

(* ===================================================================== *)
(** ** Token statistics *)
(* ===================================================================== *)

Module TokenDistance.

(** A tokenizer object as a distance holds it in [params['tokenizer']]:
    the ordered token list that its [tokenize] leaves for a string, and its
    scaler. *)
Record tokenizer_t : Type := {
  ordered_list_of : str -> list str;
  scaler : Tokenizer.Scaler
}.

(** [tokenizer.tokenize(s).get_counter()] *)
Definition counter_for (tokenizer : tokenizer_t) (s : str) : Counter :=
  Tokenizer.get_counter
    (Tokenizer.tokenize
       {| Tokenizer._scaler := scaler tokenizer;
          Tokenizer._string := s;
          Tokenizer._ordered_list := ordered_list_of tokenizer s;
          Tokenizer._tokens := [] |}).

(** A [SAPSTokenizer] in that role. *)
Definition saps (sc : Tokenizer.Scaler) : tokenizer_t :=
  {| ordered_list_of := fun s =>
       match SAPS.tokenize (SAPS.init sc) s with
       | Some t => Tokenizer.get_list t
       | None => []
       end;
     scaler := sc |}.

(** The token multisets of a comparison. *)
Record t : Type := mk {
  _src_tokens : Counter;
  _tar_tokens : Counter
}.

(** Modelled from the spec: [_TokenDistance._tokenize(src, tar)] of
    module [_token_distance], which is not in the source tree: "raw
    strings -> Tokenizer -> two token multisets". *)
Definition _tokenize (tokenizer : tokenizer_t) (src tar : str) : t :=
  {| _src_tokens := counter_for tokenizer src;
     _tar_tokens := counter_for tokenizer tar |}.

(** Modelled from the spec: [_TokenDistance._total()], not in the source
    tree: "total(tok) = countA(tok) + countB(tok) for every tok in S",
    with S "the set union of tokens appearing in either multiset". *)
Definition _total (self : t) : Counter :=
  add (_src_tokens self) (_tar_tokens self).

(** The statistics table of a comparison. *)
Record StatisticsTable : Type := {
  intersection : nat;
  union : nat;
  both : nat;
  only_a : nat;
  only_b : nat;
  neither : Z
}.

Definition sum_nat (l : list nat) : nat := fold_left Nat.add l 0.

(** Modelled from the spec: [compute(tokensA, tokensB, alphabet_policy)]
    of the statistics table, not in the source tree.  One pass over the
    union alphabet S; crisp intersection and union are the sums of the
    per-token minimum and maximum; [both], [only_a] and [only_b] count
    the tokens of S present on both sides or on one side only;
    [neither] is [alphabet - both - only_a - only_b] for a closed-world
    alphabet size, and 0 for the sentinel [alphabet = 0]. *)
Definition compute (A B : Counter) (alphabet : nat) : StatisticsTable :=
  let S := keys (add A B) in
  let n_both :=
    length (filter (fun tok => (0 <? get A tok) && (0 <? get B tok)) S) in
  let n_a :=
    length (filter (fun tok => (0 <? get A tok) && (get B tok =? 0)) S) in
  let n_b :=
    length (filter (fun tok => (get A tok =? 0) && (0 <? get B tok)) S) in
  {| intersection := sum_nat (map (fun tok => min (get A tok) (get B tok)) S);
     union := sum_nat (map (fun tok => max (get A tok) (get B tok)) S);
     both := n_both;
     only_a := n_a;
     only_b := n_b;
     neither :=
       match alphabet with
       | O => 0%Z
       | _ => (Z.of_nat alphabet - Z.of_nat n_both
               - Z.of_nat n_a - Z.of_nat n_b)%Z
       end |}.

End TokenDistance.

(* ===================================================================== *)
(** ** [Lorentzian] *)
(* ===================================================================== *)

Module Lorentzian.

Section WithFloat.

Context `{PyFloat}.

(** The summands of [dist_abs], in the order of
    [self._total().keys()]. *)
Definition terms (self : TokenDistance.t) : list float :=
  let alphabet := keys (TokenDistance._total self) in
  map (fun tok =>
         log1p (Z.abs (Z.of_nat (get (TokenDistance._src_tokens self) tok)
                       - Z.of_nat (get (TokenDistance._tar_tokens self) tok))))
      alphabet.

(** [Lorentzian(tokenizer).dist_abs(src, tar)] *)
Definition dist_abs (tokenizer : TokenDistance.tokenizer_t)
           (src tar : str) : float :=
  let self := TokenDistance._tokenize tokenizer src tar in
  fsum (terms self).

End WithFloat.

End Lorentzian.

(* ===================================================================== *)
(** ** [NCDzlib] *)
(* ===================================================================== *)

Module NCDzlib.

Local Open Scope Z_scope.

Definition bytes := list N.

(** The surrogate code points, U+D800 to U+DFFF. *)
Definition is_surrogate (c : char) : bool :=
  ((55296 <=? c) && (c <=? 57343))%N.

(** The UTF-8 bytes of one code point; surrogates cannot be encoded. *)
Definition encode_char (c : char) : option bytes :=
  (if c <? 128 then Some [c]
   else if c <? 2048 then Some [192 + c / 64; 128 + c mod 64]
   else if (55296 <=? c) && (c <=? 57343) then None
   else if c <? 65536
        then Some [224 + c / 4096; 128 + (c / 64) mod 64; 128 + c mod 64]
        else Some [240 + c / 262144; 128 + (c / 4096) mod 64;
                   128 + (c / 64) mod 64; 128 + c mod 64])%N.

(** [s.encode('utf-8')], reading [s] from position [pos]. *)
Fixpoint encode_from (pos : nat) (s : str) : result bytes :=
  match s with
  | [] => Ok []
  | c :: rest =>
      match encode_char c with
      | None => Raise (UnicodeEncodeError pos)
      | Some bs => tl <- encode_from (S pos) rest ;; Ok (bs ++ tl)
      end
  end.

Definition encode_utf8 (s : str) : result bytes := encode_from 0 s.

Section WithZlib.

Context `{PyFloat}.

(** [zlib.compress(data, level)], of the zlib library. *)
Variable compress : bytes -> Z -> result bytes.

(** [zlib.Z_DEFAULT_COMPRESSION] *)
Definition Z_DEFAULT_COMPRESSION : Z := -1.

Record t : Type := mk { _level : Z }.

(** [NCDzlib(level)] *)
Definition init (level : Z) : t := {| _level := level |}.

Definition len (b : bytes) : Z := Z.of_nat (length b).

(** [NCDzlib.dist(src, tar)] *)
Definition dist (self : t) (src tar : str) : result float :=
  if str_eqb src tar then Ok zero
  else
    src <- encode_utf8 src ;;
    tar <- encode_utf8 tar ;;
    src_comp <- compress src (_level self) ;;
    tar_comp <- compress tar (_level self) ;;
    concat_comp <- compress (src ++ tar) (_level self) ;;
    concat_comp2 <- compress (tar ++ src) (_level self) ;;
    let num :=
      Z.min (len concat_comp) (len concat_comp2)
      - Z.min (len src_comp) (len tar_comp) in
    let den := Z.max (len src_comp) (len tar_comp) - 2 in
    if den =? 0 then Raise ZeroDivisionError
    else Ok (truediv num den).

(** [dist_ncd_zlib(src, tar)], the deprecated wrapper
    [NCDzlib().dist(src, tar)]. *)
Definition dist_ncd_zlib (src tar : str) : result float :=
  dist (init Z_DEFAULT_COMPRESSION) src tar.

End WithZlib.

End NCDzlib.

(* ===================================================================== *)
(** * Properties *)
(* ===================================================================== *)

Unset Implicit Arguments.

(** ** Strings and slices *)

Lemma str_eqb_refl (a : str) : str_eqb a a = true.
Proof. unfold str_eqb. destruct (str_eq_dec a a); congruence. Qed.

Lemma str_eqb_eq (a b : str) : str_eqb a b = true <-> a = b.
Proof.
  unfold str_eqb. destruct (str_eq_dec a b); split; congruence.
Qed.

Lemma str_eqb_neq (a b : str) : str_eqb a b = false <-> a <> b.
Proof.
  unfold str_eqb. destruct (str_eq_dec a b); split; congruence.
Qed.

Lemma skipn_past (pre suf : str) : skipn (length pre) (pre ++ suf) = suf.
Proof. induction pre as [|c pre IH]; simpl; auto. Qed.

Lemma slice_from_past (pre suf : str) :
  slice_from (pre ++ suf) (length pre) = suf.
Proof. apply skipn_past. Qed.

Lemma slice_one_past (pre suf : str) :
  slice (pre ++ suf) (length pre) (length pre + 1) = firstn 1 suf.
Proof.
  unfold slice. rewrite skipn_past.
  replace (length pre + 1 - length pre) with 1 by lia. reflexivity.
Qed.

Lemma slice_next_past (pre suf : str) :
  slice (pre ++ suf) (length pre + 1) (length pre + 2)
  = firstn 1 (skipn 1 suf).
Proof.
  unfold slice.
  replace (length pre + 2 - (length pre + 1)) with 1 by lia.
  f_equal. destruct suf as [|c suf].
  - rewrite app_nil_r. simpl. apply skipn_all2. lia.
  - replace (pre ++ c :: suf) with ((pre ++ [c]) ++ suf)
      by (rewrite <- app_assoc; reflexivity).
    replace (length pre + 1) with (length (pre ++ [c]))
      by (rewrite length_app; reflexivity).
    rewrite skipn_past. reflexivity.
Qed.

Lemma last_item_rev (s : str) : last_item s = hd_error (rev s).
Proof.
  unfold last_item. induction s as [|c s IH] using rev_ind; [reflexivity|].
  rewrite rev_app_distr, length_app. simpl.
  replace (length s + 1 - 1) with (length s) by lia.
  rewrite nth_error_app2 by lia. rewrite Nat.sub_diag. reflexivity.
Qed.

(** ** Vowels *)

Lemma in_singletons_one (c : char) (l : list char) :
  existsb (str_eqb [c]) (map (fun v => [v]) l) = existsb (char_eqb c) l.
Proof.
  induction l as [|v l IH]; simpl; [reflexivity|].
  rewrite IH. f_equal. unfold char_eqb.
  destruct (N.eqb_spec c v) as [->|Hne].
  - apply str_eqb_refl.
  - apply str_eqb_neq. congruence.
Qed.

Lemma in_singletons_other (x : str) (l : list char) :
  length x <> 1 -> existsb (str_eqb x) (map (fun v => [v]) l) = false.
Proof.
  intros Hx. induction l as [|v l IH]; simpl; [reflexivity|].
  rewrite IH, orb_false_r. apply str_eqb_neq. intros ->. apply Hx. reflexivity.
Qed.

Lemma in_vowels_one (c : char) :
  SAPS.in_vowels [c] = SyllableRule.is_vowel c.
Proof. apply in_singletons_one. Qed.

Lemma in_vowels_nil : SAPS.in_vowels [] = false.
Proof. reflexivity. Qed.

Lemma leading_vowels_app (s : str) :
  s = fst (SyllableRule.leading_vowels s)
      ++ snd (SyllableRule.leading_vowels s).
Proof.
  induction s as [|c s IH]; simpl; [reflexivity|].
  destruct (SyllableRule.is_vowel c); [|reflexivity].
  destruct (SyllableRule.leading_vowels s) as [vs rest]. simpl in *.
  congruence.
Qed.

Lemma leading_vowels_stop (s : str) :
  SAPS.in_vowels (firstn 1 (snd (SyllableRule.leading_vowels s))) = false.
Proof.
  induction s as [|c s IH]; simpl; [reflexivity|].
  destruct (SyllableRule.is_vowel c) eqn:Hc.
  - destruct (SyllableRule.leading_vowels s) as [vs rest]. exact IH.
  - simpl. rewrite in_vowels_one. exact Hc.
Qed.

(** ** The loops of [SAPSTokenizer.tokenize] *)

(** The inner loop absorbs exactly the vowels that immediately follow. *)
Lemma absorb_vowels_spec (suf pre syll : str) (fuel : nat) :
  length suf <= fuel ->
  SAPS.absorb_vowels fuel (pre ++ suf) syll (length pre)
  = Some (syll ++ fst (SyllableRule.leading_vowels suf),
          length pre + length (fst (SyllableRule.leading_vowels suf))).
Proof.
  revert pre syll fuel.
  induction suf as [|c suf IH]; intros pre syll fuel Hfuel.
  - destruct fuel; simpl; rewrite slice_one_past; simpl;
      rewrite app_nil_r, Nat.add_0_r; reflexivity.
  - assert (Hstep : forall f,
      SAPS.absorb_vowels f (pre ++ c :: suf) syll (length pre)
      = if SyllableRule.is_vowel c
        then match f with
             | O => None
             | S f' => SAPS.absorb_vowels f' (pre ++ c :: suf)
                         (syll ++ [c]) (length pre + 1)
             end
        else Some (syll, length pre)).
    { intros f. destruct f; simpl; rewrite slice_one_past; simpl;
        rewrite in_vowels_one; reflexivity. }
    rewrite Hstep. simpl.
    destruct (SyllableRule.is_vowel c).
    + destruct fuel as [|fuel]; [simpl in Hfuel; lia|].
      replace (pre ++ c :: suf) with ((pre ++ [c]) ++ suf)
        by (rewrite <- app_assoc; reflexivity).
      replace (length pre + 1) with (length (pre ++ [c]))
        by (rewrite length_app; reflexivity).
      rewrite IH by (simpl in Hfuel; lia).
      destruct (SyllableRule.leading_vowels suf) as [vs rest]. simpl.
      rewrite <- app_assoc, length_app. simpl. f_equal. f_equal. lia.
    + simpl. rewrite app_nil_r, Nat.add_0_r. reflexivity.
Qed.

(** The closing condition of the code is the one of the rule, asked only
    of a syllable that ends in a vowel. *)
Lemma takes_coda_spec (pre body rest1 : str) :
  body <> [] ->
  SAPS.takes_coda ((pre ++ body) ++ rest1) body (length (pre ++ body))
  = Some (SyllableRule.ends_in_vowel body && SyllableRule.coda_follows rest1).
Proof.
  intros Hbody. unfold SAPS.takes_coda.
  rewrite last_item_rev. unfold SyllableRule.ends_in_vowel.
  destruct (rev body) as [|l r] eqn:Hrev.
  { apply (f_equal (@rev char)) in Hrev. rewrite rev_involutive in Hrev.
    simpl in Hrev. contradiction. }
  simpl hd_error. cbv iota. rewrite in_vowels_one. f_equal. f_equal.
  rewrite slice_from_past, slice_one_past.
  replace (length (pre ++ body) + 1 + 1) with (length (pre ++ body) + 2)
    by lia.
  rewrite slice_next_past.
  destruct rest1 as [|k [|k2 rest2]]; simpl.
  - reflexivity.
  - rewrite in_vowels_one. reflexivity.
  - rewrite !in_vowels_one. rewrite orb_false_r. reflexivity.
Qed.

(** One pass through the loop body reads the first syllable of what is
    left of the word. *)
Lemma syllable_spec (pre suf : str) :
  suf <> [] ->
  exists syll rest,
    SyllableRule.first_syllable SyllableRule.ends_in_vowel suf
    = Some (syll, rest)
    /\ suf = syll ++ rest
    /\ syll <> []
    /\ SAPS.syllable (pre ++ suf) (length pre)
       = Some (syll, length (pre ++ syll)).
Proof.
  intros Hsuf. destruct suf as [|c suf]; [contradiction|].
  unfold SAPS.syllable, SyllableRule.first_syllable.
  rewrite slice_one_past. simpl firstn.
  replace (pre ++ c :: suf) with ((pre ++ [c]) ++ suf)
    by (rewrite <- app_assoc; reflexivity).
  replace (length pre + 1) with (length (pre ++ [c]))
    by (rewrite length_app; reflexivity).
  rewrite absorb_vowels_spec by (rewrite !length_app; simpl; lia).
  pose proof (leading_vowels_app suf) as Happ.
  destruct (SyllableRule.leading_vowels suf) as [vs rest1]. simpl in Happ.
  simpl fst. subst suf.
  replace ((pre ++ [c]) ++ vs ++ rest1) with ((pre ++ c :: vs) ++ rest1)
    by (rewrite <- !app_assoc; reflexivity).
  replace (length (pre ++ [c]) + length vs) with (length (pre ++ c :: vs))
    by (rewrite !length_app; simpl; lia).
  change ([c] ++ vs) with (c :: vs).
  rewrite takes_coda_spec by discriminate.
  destruct rest1 as [|k rest2].
  - simpl SyllableRule.coda_follows. rewrite andb_false_r.
    exists (c :: vs), []. split; [reflexivity|]. split; [|split].
    + reflexivity.
    + discriminate.
    + reflexivity.
  - destruct (SyllableRule.ends_in_vowel (c :: vs)
              && SyllableRule.coda_follows (k :: rest2)).
    + exists ((c :: vs) ++ [k]), rest2. split; [reflexivity|].
      split; [|split].
      * rewrite <- app_assoc. reflexivity.
      * discriminate.
      * rewrite slice_one_past. simpl firstn. f_equal. f_equal.
        rewrite !length_app. simpl. lia.
    + exists (c :: vs), (k :: rest2). split; [reflexivity|].
      split; [|split]; [reflexivity|discriminate|reflexivity].
Qed.

(** The [while] loop has a result whenever the fuel covers what is left
    of the word, and appends the syllables of the rule. *)
Lemma while_syllables_spec (n : nat) :
  forall (suf pre : str) (acc : list str) (fuel : nat),
    length suf <= n -> length suf <= fuel ->
    exists l,
      SAPS.while_syllables fuel (pre ++ suf) (length pre) acc
      = Some (acc ++ l)
      /\ SyllableRule.splits SyllableRule.ends_in_vowel suf l
      /\ concat l = suf.
Proof.
  induction n as [|n IH]; intros suf pre acc fuel Hn Hfuel.
  - destruct suf; [|simpl in Hn; lia].
    exists []. rewrite !app_nil_r. repeat split; [|constructor].
    destruct fuel; simpl; rewrite Nat.ltb_irrefl; reflexivity.
  - destruct suf as [|c suf].
    + exists []. rewrite !app_nil_r. repeat split; [|constructor].
      destruct fuel; simpl; rewrite Nat.ltb_irrefl; reflexivity.
    + destruct (syllable_spec pre (c :: suf)) as
        (syll & rest & Hfirst & Hsplit & Hne & Hrun); [discriminate|].
      destruct fuel as [|fuel]; [simpl in Hfuel; lia|].
      assert (Hlen : length rest < length (c :: suf)).
      { rewrite Hsplit, length_app. destruct syll; [contradiction|].
        simpl. lia. }
      destruct (IH rest (pre ++ syll) (acc ++ [syll]) fuel) as
        (l & Hloop & Hl & Hcat); [simpl in *; lia..|].
      exists (syll :: l). repeat split.
      * simpl SAPS.while_syllables.
        assert (Hlt : (length pre <? length (pre ++ c :: suf)) = true).
        { apply Nat.ltb_lt. rewrite length_app. simpl. lia. }
        rewrite Hlt, Hrun.
        rewrite Hsplit, app_assoc, Hloop, <- app_assoc. reflexivity.
      * econstructor; eassumption.
      * simpl. rewrite Hcat. symmetry. exact Hsplit.
Qed.

(** The syllables of one word, as the body of the [for] loop computes
    them. *)
Lemma for_body_spec (ordered_list : list str) (w : str) :
  exists l,
    SAPS.for_body ordered_list w = Some l
    /\ SyllableRule.splits SyllableRule.ends_in_vowel w l
    /\ concat l = w.
Proof.
  unfold SAPS.for_body.
  destruct (while_syllables_spec (length w) w [] [] (length w)
              (le_n _) (le_n _)) as (l & Hl & Hs & Hc).
  exists l. auto.
Qed.

Lemma for_body_forgets (a b : list str) (w : str) :
  SAPS.for_body a w = SAPS.for_body b w.
Proof. reflexivity. Qed.

(** After the [for] loop the ordered list holds the syllables of the last
    word alone. *)
Lemma for_words_last (words : list str) (w : str) (ordered_list : list str) :
  SAPS.for_words (words ++ [w]) ordered_list = SAPS.for_body [] w.
Proof.
  revert ordered_list.
  induction words as [|v words IH]; intros ordered_list; simpl.
  - rewrite (for_body_forgets ordered_list [] w).
    destruct (SAPS.for_body [] w); reflexivity.
  - destruct (for_body_spec ordered_list v) as (l & -> & _). apply IH.
Qed.

(** The rule is a function of the word. *)
Lemma splits_functional (coda_ok : str -> bool) (w : str) (l1 l2 : list str) :
  SyllableRule.splits coda_ok w l1 ->
  SyllableRule.splits coda_ok w l2 ->
  l1 = l2.
Proof.
  intros H1. revert l2.
  induction H1 as [|w syll rest l Hfirst _ IH]; intros l2 H2.
  - inversion H2 as [|? ? ? ? Hf]; [reflexivity|]. discriminate Hf.
  - inversion H2 as [Hw|w' syll' rest' l' Hf Hs]; subst.
    + discriminate Hfirst.
    + rewrite Hfirst in Hf. inversion Hf; subst. f_equal. apply IH. exact Hs.
Qed.

(** ** [str.split] *)

Lemma split_from_no_space (w cur : str) :
  no_space w = true ->
  split_from cur w = match cur ++ w with [] => [] | _ => [cur ++ w] end.
Proof.
  revert cur. induction w as [|c w IH]; intros cur Hw; simpl.
  - rewrite app_nil_r. reflexivity.
  - simpl in Hw. apply andb_true_iff in Hw as [Hc Hw].
    apply negb_true_iff in Hc. rewrite Hc.
    rewrite IH by exact Hw. rewrite <- app_assoc. reflexivity.
Qed.

Lemma split_no_space (w : str) :
  no_space w = true ->
  split w = match w with [] => [] | _ => [w] end.
Proof. intros Hw. apply (split_from_no_space w [] Hw). Qed.

Lemma split_from_words (s cur : str) :
  no_space cur = true ->
  Forall (fun w => w <> [] /\ no_space w = true) (split_from cur s).
Proof.
  revert cur. induction s as [|c s IH]; intros cur Hcur; simpl.
  - destruct cur; constructor; [split; [discriminate|exact Hcur]|constructor].
  - destruct (isspace c) eqn:Hc.
    + destruct cur.
      * apply IH. reflexivity.
      * constructor; [split; [discriminate|exact Hcur]|]. apply IH. reflexivity.
    + apply IH. unfold no_space. rewrite forallb_app. simpl.
      rewrite Hc. simpl. rewrite andb_true_r. exact Hcur.
Qed.

Lemma split_words (s : str) :
  Forall (fun w => w <> [] /\ no_space w = true) (split s).
Proof. apply split_from_words. reflexivity. Qed.

(** ** [SAPSTokenizer.tokenize] *)

Lemma tokenize_one_word (self : Tokenizer.t) (w : str) :
  no_space w = true ->
  exists l,
    SAPS.tokenize self w
    = Some {| Tokenizer._scaler := Tokenizer._scaler self;
              Tokenizer._string := w;
              Tokenizer._ordered_list := l;
              Tokenizer._tokens :=
                Tokenizer.scale (Tokenizer._scaler self) (counter_of l) |}
    /\ SyllableRule.splits SyllableRule.ends_in_vowel w l
    /\ concat l = w.
Proof.
  intros Hw. unfold SAPS.tokenize. rewrite (split_no_space w Hw).
  destruct w as [|c w].
  - exists []. repeat split. constructor.
  - simpl SAPS.for_words.
    destruct (for_body_spec [] (c :: w)) as (l & Hl & Hs & Hc).
    rewrite Hl. exists l. repeat split; assumption.
Qed.

(** [SAPSTokenizer.tokenize] returns on every string: the fuel of its loops
    never runs out and no index is out of range. *)
Lemma SAPS_tokenize_total (self : Tokenizer.t) (string : str) :
  exists t, SAPS.tokenize self string = Some t.
Proof.
  unfold SAPS.tokenize.
  assert (Hwords : forall words acc, exists l, SAPS.for_words words acc = Some l).
  { induction words as [|w words IH]; intros acc; simpl.
    - exists acc. reflexivity.
    - destruct (for_body_spec acc w) as (l & -> & _). apply IH. }
  destruct (Hwords (split string) []) as (l & ->). eexists. reflexivity.
Qed.

(** C1, as amended: on a word without whitespace, [SAPSTokenizer.tokenize]
    returns, and its ordered token list is the one list of syllables that
    the rule yields when a closing consonant is absorbed only by a syllable
    that ends in a vowel: each syllable begins at the current character,
    absorbs the vowels (a, e, i, o, u, y in either case) that immediately
    follow, then, if it ends in a vowel, absorbs one consonant that is
    followed by the end of the word or by another consonant.  The syllables
    are in left-to-right order: concatenated they give the word back. *)
Theorem SAPS_tokenize_follows_rule (self : Tokenizer.t) (w : str) :
  no_space w = true ->
  exists t,
    SAPS.tokenize self w = Some t
    /\ SyllableRule.splits SyllableRule.ends_in_vowel w (Tokenizer.get_list t)
    /\ concat (Tokenizer.get_list t) = w
    /\ forall l,
         SyllableRule.splits SyllableRule.ends_in_vowel w l ->
         l = Tokenizer.get_list t.
Proof.
  intros Hw. destruct (tokenize_one_word self w Hw) as (l & Ht & Hs & Hc).
  eexists. split; [exact Ht|]. simpl. repeat split; try assumption.
  intros l' Hl'. exact (splits_functional _ _ _ _ Hl' Hs).
Qed.

Lemma SAPS_tokenize_follows_rule_witness :
  no_space (lit "entreatment") = true
  /\ exists t,
       SAPS.tokenize (SAPS.init Tokenizer.ScalerNone) (lit "entreatment")
       = Some t
       /\ SyllableRule.splits SyllableRule.ends_in_vowel (lit "entreatment")
            (Tokenizer.get_list t)
       /\ concat (Tokenizer.get_list t) = lit "entreatment"
       /\ forall l,
            SyllableRule.splits SyllableRule.ends_in_vowel
              (lit "entreatment") l ->
            l = Tokenizer.get_list t.
Proof.
  split; [reflexivity|].
  apply (SAPS_tokenize_follows_rule
           (SAPS.init Tokenizer.ScalerNone) (lit "entreatment")).
  reflexivity.
Defined.

(** The reference split of "entreatment". *)
Example SAPS_tokenize_entreatment :
  option_map Tokenizer.get_list
    (SAPS.tokenize (SAPS.init Tokenizer.ScalerNone) (lit "entreatment"))
  = Some [lit "en"; lit "t"; lit "reat"; lit "men"; lit "t"].
Proof. reflexivity. Qed.

(** C1, as stated, fails on the word "st": the rule as worded lets the
    syllable that begins at "s" absorb the consonant "t", which is followed
    by the end of the word, and so yields the one syllable "st"; the code
    asks first that the syllable ends in a vowel and returns "s", "t". *)
Lemma SAPS_tokenize_not_rule_as_stated :
  no_space (lit "st") = true
  /\ SAPS.tokenize (SAPS.init Tokenizer.ScalerNone) (lit "st")
     = Some (Tokenizer.tokenize
               {| Tokenizer._scaler := Tokenizer.ScalerNone;
                  Tokenizer._string := lit "st";
                  Tokenizer._ordered_list := [lit "s"; lit "t"];
                  Tokenizer._tokens := [] |})
  /\ ~ (exists t,
          SAPS.tokenize (SAPS.init Tokenizer.ScalerNone) (lit "st") = Some t
          /\ SyllableRule.splits SyllableRule.always (lit "st")
               (Tokenizer.get_list t)).
Proof.
  split; [reflexivity|]. split; [reflexivity|].
  intros (t & Ht & Hs).
  vm_compute in Ht. inversion Ht; subst t; clear Ht.
  inversion Hs as [|w syll rest l Hfirst Hrest]; subst.
  vm_compute in Hfirst. discriminate Hfirst.
Qed.

(** C2: when the input holds more than one whitespace-separated word,
    [SAPSTokenizer.tokenize] returns the ordered token list and the
    token-count mapping of its last word alone, which are the syllables of
    that word and their counts under the configured scaling; nothing of the
    earlier words is kept. *)
Theorem SAPS_tokenize_keeps_last_word (self : Tokenizer.t) (string : str) :
  1 < length (split string) ->
  let w := last (split string) [] in
  exists t t',
    SAPS.tokenize self string = Some t
    /\ SAPS.tokenize self w = Some t'
    /\ Tokenizer.get_list t = Tokenizer.get_list t'
    /\ Tokenizer.get_counter t = Tokenizer.get_counter t'
    /\ SyllableRule.splits SyllableRule.ends_in_vowel w (Tokenizer.get_list t)
    /\ Tokenizer.get_counter t
       = Tokenizer.scale (Tokenizer._scaler self)
           (counter_of (Tokenizer.get_list t)).
Proof.
  intros Hlen w.
  assert (Hne : split string <> []).
  { intros E. rewrite E in Hlen. simpl in Hlen. lia. }
  destruct (exists_last Hne) as (words & w0 & Hsplit).
  assert (Hw0 : w = w0).
  { unfold w. rewrite Hsplit. apply last_last. }
  assert (Hword : no_space w0 = true).
  { pose proof (split_words string) as Hall. rewrite Hsplit in Hall.
    apply Forall_app in Hall as [_ Hall]. inversion Hall as [|? ? [_ H] _].
    exact H. }
  rewrite Hw0.
  destruct (tokenize_one_word self w0 Hword) as (l & Ht' & Hs & _).
  assert (Hbody : SAPS.for_body [] w0 = Some l).
  { destruct (for_body_spec [] w0) as (l0 & Hl0 & Hs0 & _).
    rewrite Hl0. f_equal. exact (splits_functional _ _ _ _ Hs0 Hs). }
  eexists. eexists. split; [|split; [exact Ht'|]].
  - unfold SAPS.tokenize. rewrite Hsplit, for_words_last, Hbody. reflexivity.
  - simpl. repeat split. exact Hs.
Qed.

Lemma SAPS_tokenize_keeps_last_word_witness :
  1 < length (split (lit "hello  baca dodo "))
  /\ let w := last (split (lit "hello  baca dodo ")) [] in
     exists t t',
       SAPS.tokenize (SAPS.init Tokenizer.ScalerSet)
         (lit "hello  baca dodo ") = Some t
       /\ SAPS.tokenize (SAPS.init Tokenizer.ScalerSet) w = Some t'
       /\ Tokenizer.get_list t = Tokenizer.get_list t'
       /\ Tokenizer.get_counter t = Tokenizer.get_counter t'
       /\ SyllableRule.splits SyllableRule.ends_in_vowel w
            (Tokenizer.get_list t)
       /\ Tokenizer.get_counter t
          = Tokenizer.scale
              (Tokenizer._scaler (SAPS.init Tokenizer.ScalerSet))
              (counter_of (Tokenizer.get_list t)).
Proof.
  split; [vm_compute; lia|].
  apply (SAPS_tokenize_keeps_last_word
           (SAPS.init Tokenizer.ScalerSet) (lit "hello  baca dodo ")).
  vm_compute; lia.
Defined.

(** Of "hello  baca dodo " only the syllables of "dodo" are left. *)
Example SAPS_tokenize_three_words :
  option_map (fun t => (Tokenizer.get_list t, Tokenizer.get_counter t))
    (SAPS.tokenize (SAPS.init Tokenizer.ScalerNone)
       (lit "hello  baca dodo "))
  = Some ([lit "do"; lit "do"], [(lit "do", 2)]).
Proof. reflexivity. Qed.

(** C9: the "set" scaling maps every positive count to 1, leaves a zero
    count at 0, and is idempotent on every count and on every token-count
    mapping. *)
Theorem set_scaling_idempotent :
  (forall n, Tokenizer.binarize (S n) = 1)
  /\ Tokenizer.binarize 0 = 0
  /\ (forall n, Tokenizer.binarize (Tokenizer.binarize n)
                = Tokenizer.binarize n)
  /\ forall c : Counter,
       Tokenizer.scale Tokenizer.ScalerSet
         (Tokenizer.scale Tokenizer.ScalerSet c)
       = Tokenizer.scale Tokenizer.ScalerSet c.
Proof.
  split; [reflexivity|]. split; [reflexivity|].
  assert (Hidem : forall n, Tokenizer.binarize (Tokenizer.binarize n)
                            = Tokenizer.binarize n)
    by (intros [|n]; reflexivity).
  split; [exact Hidem|].
  intros c. simpl. rewrite map_map. apply map_ext.
  intros [k n]. simpl. rewrite Hidem. reflexivity.
Qed.

(** ** [Count.fingerprint] *)

Section CountFingerprint.

Local Open Scope Z_scope.

(** [Counter(word)[letter]] is the number of characters of the word that
    are equal to the letter. *)
Lemma count_occurrences (word : str) (letter : char) :
  Count.count word letter = Count.occurrences word letter.
Proof.
  unfold Count.count, Count.occurrences. f_equal.
  induction word as [|c word IH]; simpl; [reflexivity|].
  destruct (N.eq_dec c letter) as [E|E].
  - apply N.eqb_eq in E. rewrite E. simpl. f_equal. exact IH.
  - apply N.eqb_neq in E. rewrite E. exact IH.
Qed.

Lemma shift_add_field (fp c : Z) :
  Z.shiftl fp 2 + Z.land c 3 = Count.push_digit4 fp (c mod 4).
Proof.
  unfold Count.push_digit4. rewrite Z.shiftl_mul_pow2 by lia.
  change 3 with (Z.ones 2). rewrite Z.land_ones by lia.
  change (2 ^ 2) with 4. lia.
Qed.

(** The loop over the letters fills one field per letter until the bits
    are used up or the letters run out. *)
Lemma for_letters_spec (word : str) (most_common : list char) :
  forall (fp : Z) (k : nat),
    Count.for_letters most_common word fp (2 * Z.of_nat k)
    = (fold_left Count.push_digit4
         (map (fun letter => Count.occurrences word letter mod 4)
              (firstn k most_common)) fp,
       2 * Z.of_nat (k - length (firstn k most_common))).
Proof.
  induction most_common as [|letter mc IH]; intros fp k.
  - rewrite firstn_nil. simpl length. rewrite Nat.sub_0_r. reflexivity.
  - destruct k as [|k].
    + reflexivity.
    + cbn [Count.for_letters].
      destruct (Z.eqb_spec (2 * Z.of_nat (S k)) 0) as [E|_]; [lia|].
      rewrite shift_add_field, count_occurrences.
      replace (2 * Z.of_nat (S k) - 2) with (2 * Z.of_nat k) by lia.
      rewrite IH. reflexivity.
Qed.

Lemma fold_step_zeros (m : nat) (acc : Z) :
  fold_left Count.push_digit4 (repeat 0 m) acc = acc * 4 ^ Z.of_nat m.
Proof.
  revert acc. induction m as [|m IH]; intros acc.
  - simpl. lia.
  - cbn [repeat fold_left]. rewrite IH. unfold Count.push_digit4.
    rewrite Nat2Z.inj_succ, Z.pow_succ_r by lia. lia.
Qed.

Lemma fold_step_bound (ds : list Z) :
  Forall (fun d => 0 <= d < 4) ds ->
  forall (acc : Z) (j : nat),
    0 <= acc < 4 ^ Z.of_nat j ->
    0 <= fold_left Count.push_digit4 ds acc < 4 ^ Z.of_nat (j + length ds).
Proof.
  induction 1 as [|d ds Hd _ IH]; intros acc j Hacc.
  - simpl. rewrite Nat.add_0_r. exact Hacc.
  - cbn [fold_left length].
    replace (j + S (length ds))%nat with (S j + length ds)%nat by lia.
    apply IH. unfold Count.push_digit4.
    rewrite Nat2Z.inj_succ, Z.pow_succ_r by lia. lia.
Qed.

Lemma fields_length (n_bits : Z) (most_common : list char) (word : str) :
  length (Count.fields n_bits most_common word) = Z.to_nat (n_bits / 2).
Proof.
  unfold Count.fields. rewrite length_app, length_map, repeat_length.
  pose proof (firstn_le_length (Z.to_nat (n_bits / 2)) most_common). lia.
Qed.

Lemma fields_range (n_bits : Z) (most_common : list char) (word : str) :
  Forall (fun d => 0 <= d < 4) (Count.fields n_bits most_common word).
Proof.
  unfold Count.fields. apply Forall_app. split.
  - apply Forall_forall. intros d Hd. apply in_map_iff in Hd as (l & <- & _).
    apply Z.mod_pos_bound. lia.
  - apply Forall_forall. intros d Hd. apply repeat_spec in Hd. lia.
Qed.

End CountFingerprint.

(** With a most-common list that begins e, t, a, o, i, n, s, h the
    fingerprint of "hat" is the one of the docstring, [0b1010000000001]. *)
Example Count_fingerprint_hat :
  Count.fingerprint (Count.init 16 (lit "etaoinshrdlcumwf")) (lit "hat")
  = Ok 5121%Z.
Proof. reflexivity. Qed.

(** A short most-common list leaves the low-order bits zero. *)
Example Count_fingerprint_short_list :
  Count.fingerprint (Count.init 8 (lit "ta")) (lit "hat")
  = Ok 80%Z.
Proof. reflexivity. Qed.

(** ** Counters *)

Lemma filter_all {A : Type} (f : A -> bool) (l : list A) :
  (forall x, In x l -> f x = true) -> filter f l = l.
Proof.
  induction l as [|x l IH]; intros Hall; simpl; [reflexivity|].
  rewrite (Hall x (or_introl eq_refl)). f_equal.
  apply IH. intros y Hy. apply Hall. right. exact Hy.
Qed.

Lemma filter_none {A : Type} (f : A -> bool) (l : list A) :
  (forall x, In x l -> f x = false) -> filter f l = [].
Proof.
  induction l as [|x l IH]; intros Hall; simpl; [reflexivity|].
  rewrite (Hall x (or_introl eq_refl)).
  apply IH. intros y Hy. apply Hall. right. exact Hy.
Qed.

Lemma mem_keys (c : Counter) (k : str) : mem c k = true <-> In k (keys c).
Proof.
  unfold mem. rewrite existsb_exists. split.
  - intros (x & Hx & E). apply str_eqb_eq in E. subst. exact Hx.
  - intros Hk. exists k. split; [exact Hk | apply str_eqb_refl].
Qed.

Lemma keys_incr (c : Counter) (k k' : str) :
  In k' (keys (incr c k)) <-> k' = k \/ In k' (keys c).
Proof.
  induction c as [|[k0 n] c IH]; simpl.
  - intuition congruence.
  - destruct (str_eqb k k0) eqn:E; simpl.
    + apply str_eqb_eq in E. subst. intuition.
    + rewrite IH. intuition.
Qed.

Lemma NoDup_keys_incr (c : Counter) (k : str) :
  NoDup (keys c) -> NoDup (keys (incr c k)).
Proof.
  induction c as [|[k0 n] c IH]; simpl; intros Hc.
  - constructor; [intros []|constructor].
  - inversion Hc as [|? ? Hnot Hrest]; subst.
    destruct (str_eqb k k0) eqn:E; simpl.
    + constructor; assumption.
    + constructor; [|apply IH; exact Hrest].
      rewrite keys_incr. intros [->|Hin]; [|contradiction].
      rewrite str_eqb_refl in E. discriminate.
Qed.

Lemma positive_incr (c : Counter) (k : str) :
  Forall (fun kv => 0 < snd kv) c ->
  Forall (fun kv => 0 < snd kv) (incr c k).
Proof.
  induction c as [|[k0 n] c IH]; simpl; intros Hc.
  - constructor; [simpl; lia|constructor].
  - inversion Hc; subst.
    destruct (str_eqb k k0); constructor; simpl in *; auto; lia.
Qed.

(** [Counter(tokens)] has each token once as a key, with a positive
    count. *)
Lemma counter_of_wf (tokens : list str) :
  NoDup (keys (counter_of tokens))
  /\ Forall (fun kv => 0 < snd kv) (counter_of tokens)
  /\ forall k, In k (keys (counter_of tokens)) <-> In k tokens.
Proof.
  unfold counter_of.
  assert (Hgen : forall c,
    NoDup (keys c) -> Forall (fun kv => 0 < snd kv) c ->
    NoDup (keys (fold_left incr tokens c))
    /\ Forall (fun kv => 0 < snd kv) (fold_left incr tokens c)
    /\ forall k, In k (keys (fold_left incr tokens c))
                 <-> In k tokens \/ In k (keys c)).
  { induction tokens as [|tok tokens IH]; intros c Hnd Hpos; simpl.
    - repeat split; auto. tauto.
    - destruct (IH (incr c tok) (NoDup_keys_incr c tok Hnd)
                  (positive_incr c tok Hpos)) as (H1 & H2 & H3).
      repeat split; auto.
      + intros Hk. apply H3 in Hk. rewrite keys_incr in Hk. intuition.
      + intros Hk. apply H3. rewrite keys_incr. intuition. }
  destruct (Hgen [] (NoDup_nil _) (Forall_nil _)) as (H1 & H2 & H3).
  repeat split; auto.
  - intros Hk. apply H3 in Hk. simpl in Hk. tauto.
  - intros Hk. apply H3. left. exact Hk.
Qed.

Lemma keys_scale (sc : Tokenizer.Scaler) (c : Counter) :
  keys (Tokenizer.scale sc c) = keys c.
Proof.
  unfold keys. destruct sc; simpl; [reflexivity| |];
    rewrite map_map; reflexivity.
Qed.

Lemma get_entry (c : Counter) (k : str) (n : nat) :
  NoDup (keys c) -> In (k, n) c -> get c k = n.
Proof.
  induction c as [|[k0 n0] c IH]; simpl; intros Hnd Hin; [contradiction|].
  inversion Hnd as [|? ? Hnot Hrest]; subst.
  destruct Hin as [E|Hin].
  - inversion E; subst. rewrite str_eqb_refl. reflexivity.
  - destruct (str_eqb k k0) eqn:E.
    + apply str_eqb_eq in E. subst. exfalso. apply Hnot.
      apply (in_map fst) in Hin. exact Hin.
    + apply IH; assumption.
Qed.

(** The keys of [a + a] are the keys of [a] that count at least once. *)
Lemma keys_add_self (a : Counter) :
  NoDup (keys a) ->
  keys (add a a) = keys (filter (fun kv => 0 <? snd kv) a).
Proof.
  intros Hnd. unfold add.
  rewrite (filter_none (fun kv => negb (mem a (fst kv)) && (0 <? snd kv)) a).
  2:{ intros kv Hkv. apply andb_false_iff. left. apply negb_false_iff.
      apply mem_keys. apply in_map. exact Hkv. }
  rewrite app_nil_r. unfold keys.
  assert (Hgen : forall l, incl l a ->
    map fst (filter (fun kv => 0 <? snd kv)
               (map (fun kv => (fst kv, snd kv + get a (fst kv))) l))
    = map fst (filter (fun kv => 0 <? snd kv) l)).
  { induction l as [|[k n] l IH]; intros Hl; simpl; [reflexivity|].
    rewrite (get_entry a k n Hnd) by (apply Hl; left; reflexivity).
    replace (0 <? n + n) with (0 <? n)
      by (destruct n; [reflexivity|simpl; reflexivity]).
    destruct (0 <? n); simpl; rewrite IH;
      try reflexivity; intros x Hx; apply Hl; right; exact Hx. }
  apply Hgen. apply incl_refl.
Qed.

Lemma alphabet_self_present (a : Counter) (k : str) :
  NoDup (keys a) -> In k (keys (add a a)) -> 0 < get a k.
Proof.
  intros Hnd Hk. rewrite (keys_add_self a Hnd) in Hk.
  apply in_map_iff in Hk as ([k0 n] & E & Hin). simpl in E. subst k0.
  apply filter_In in Hin as [Hin Hpos]. simpl in Hpos.
  rewrite (get_entry a k n Hnd Hin). apply Nat.ltb_lt. exact Hpos.
Qed.

Lemma counter_for_NoDup (tokenizer : TokenDistance.tokenizer_t) (s : str) :
  NoDup (keys (TokenDistance.counter_for tokenizer s)).
Proof.
  unfold TokenDistance.counter_for, Tokenizer.get_counter. simpl.
  rewrite keys_scale. apply counter_of_wf.
Qed.

(** Without a callable scaler every token of the string counts at least
    once, so the alphabet of a self-comparison is the set of its tokens. *)
Lemma alphabet_self_distinct (tokenizer : TokenDistance.tokenizer_t) (s : str) :
  (forall f, TokenDistance.scaler tokenizer <> Tokenizer.ScalerFun f) ->
  let a := TokenDistance.counter_for tokenizer s in
  length (keys (add a a))
  = length (nodup str_eq_dec (TokenDistance.ordered_list_of tokenizer s)).
Proof.
  intros Hsc a.
  rewrite (keys_add_self a (counter_for_NoDup tokenizer s)).
  destruct (counter_of_wf (TokenDistance.ordered_list_of tokenizer s))
    as (Hnd & Hpos & Hkeys).
  assert (Hall : filter (fun kv => 0 <? snd kv) a = a).
  { apply filter_all. intros [k n] Hin. simpl. apply Nat.ltb_lt.
    unfold a, TokenDistance.counter_for, Tokenizer.get_counter in Hin.
    simpl in Hin. rewrite Forall_forall in Hpos.
    destruct (TokenDistance.scaler tokenizer) as [| |f]; simpl in Hin.
    - exact (Hpos _ Hin).
    - apply in_map_iff in Hin as ([k0 n0] & E & Hin0). inversion E; subst.
      specialize (Hpos _ Hin0). simpl in *. destruct n0; simpl; lia.
    - exfalso. exact (Hsc f eq_refl). }
  rewrite Hall. unfold a, TokenDistance.counter_for, Tokenizer.get_counter.
  simpl. rewrite keys_scale.
  apply Permutation_length. apply NoDup_Permutation.
  - exact Hnd.
  - apply NoDup_nodup.
  - intros k. rewrite Hkeys, nodup_In. tauto.
Qed.

(** ** Self-comparison *)

Lemma fsum_zeros `{PyFloat} (xs : list float) :
  Forall (fun x => x = zero) xs -> fsum xs = zero.
Proof.
  unfold fsum. induction 1 as [|x xs Hx _ IH]; simpl; [reflexivity|].
  rewrite Hx, fadd_0_0. exact IH.
Qed.

Lemma Lorentzian_terms_self `{PyFloat} (a : Counter) :
  Forall (fun x => x = zero)
    (Lorentzian.terms
       {| TokenDistance._src_tokens := a; TokenDistance._tar_tokens := a |}).
Proof.
  unfold Lorentzian.terms. apply Forall_forall. intros x Hx.
  apply in_map_iff in Hx as (tok & <- & _). simpl.
  rewrite Z.sub_diag. simpl. apply log1p_0.
Qed.

(** C3: a string compared with itself is a perfect match.  In the
    statistics table [only_a = only_b = 0] and [both] is the size of the
    alphabet, which is the number of distinct tokens of the string unless a
    callable scaler is in use; [Lorentzian.dist_abs(s, s)] is 0, every
    difference of counts being 0; [NCDzlib.dist(s, s)] is 0.0. *)
Theorem self_comparison_perfect_match `{PyFloat}
        (tokenizer : TokenDistance.tokenizer_t) (alphabet : nat)
        (compress : NCDzlib.bytes -> Z -> result NCDzlib.bytes)
        (ncd : NCDzlib.t) (s : str) :
  let a := TokenDistance.counter_for tokenizer s in
  let table := TokenDistance.compute a a alphabet in
  TokenDistance.only_a table = 0
  /\ TokenDistance.only_b table = 0
  /\ TokenDistance.both table = length (keys (add a a))
  /\ match TokenDistance.scaler tokenizer with
     | Tokenizer.ScalerFun _ => True
     | _ => TokenDistance.both table
            = length (nodup str_eq_dec
                        (TokenDistance.ordered_list_of tokenizer s))
     end
  /\ Lorentzian.dist_abs tokenizer s s = zero
  /\ NCDzlib.dist compress ncd s s = Ok zero.
Proof.
  intros a table.
  assert (Hboth : TokenDistance.both table = length (keys (add a a))).
  { unfold table, TokenDistance.compute. simpl. f_equal.
    apply filter_all. intros k Hk.
    pose proof (alphabet_self_present a k (counter_for_NoDup tokenizer s) Hk)
      as Hpos.
    apply Nat.ltb_lt in Hpos. rewrite Hpos. reflexivity. }
  split; [|split; [|split; [exact Hboth|split; [|split]]]].
  - unfold table, TokenDistance.compute. simpl.
    rewrite filter_none; [reflexivity|]. intros k _.
    destruct (get a k); reflexivity.
  - unfold table, TokenDistance.compute. simpl.
    rewrite filter_none; [reflexivity|]. intros k _.
    destruct (get a k); reflexivity.
  - destruct (TokenDistance.scaler tokenizer) eqn:Hsc; [| |exact I];
      rewrite Hboth; apply alphabet_self_distinct;
      intros f E; rewrite Hsc in E; discriminate E.
  - unfold Lorentzian.dist_abs, TokenDistance._tokenize.
    apply fsum_zeros. apply Lorentzian_terms_self.
  - unfold NCDzlib.dist. rewrite str_eqb_refl. reflexivity.
Qed.

Lemma self_comparison_perfect_match_witness :
  let tokenizer := TokenDistance.saps Tokenizer.ScalerNone in
  let s := lit "entreatment" in
  let a := TokenDistance.counter_for tokenizer s in
  let table := TokenDistance.compute a a 0 in
  TokenDistance.only_a table = 0
  /\ TokenDistance.only_b table = 0
  /\ TokenDistance.both table = length (keys (add a a))
  /\ TokenDistance.both table
     = length (nodup str_eq_dec (TokenDistance.ordered_list_of tokenizer s))
  /\ @Lorentzian.dist_abs exact_float tokenizer s s = @zero exact_float
  /\ @NCDzlib.dist exact_float (fun data _ => Ok data)
       (NCDzlib.init NCDzlib.Z_DEFAULT_COMPRESSION) s s
     = Ok (@zero exact_float).
Proof.
  exact (@self_comparison_perfect_match exact_float
           (TokenDistance.saps Tokenizer.ScalerNone) 0
           (fun data _ => Ok data)
           (NCDzlib.init NCDzlib.Z_DEFAULT_COMPRESSION)
           (lit "entreatment")).
Defined.

(** The table of "entreatment" against itself under the SAPS tokenizer:
    the four distinct syllables are all shared. *)
Example self_comparison_entreatment :
  let a := TokenDistance.counter_for
             (TokenDistance.saps Tokenizer.ScalerNone) (lit "entreatment") in
  TokenDistance.compute a a 0
  = {| TokenDistance.intersection := 5;
       TokenDistance.union := 5;
       TokenDistance.both := 4;
       TokenDistance.only_a := 0;
       TokenDistance.only_b := 0;
       TokenDistance.neither := 0 |}.
Proof. reflexivity. Qed.

(** ** Swapping the two strings *)

(** [NCDzlib.dist] returns the same number for both orders of its
    arguments: it only takes minima and maxima of the lengths, over both
    concatenations. *)
Lemma NCDzlib_dist_swap `{PyFloat}
      (compress : NCDzlib.bytes -> Z -> result NCDzlib.bytes)
      (ncd : NCDzlib.t) (src tar : str) (x : float) :
  NCDzlib.dist compress ncd src tar = Ok x ->
  NCDzlib.dist compress ncd tar src = Ok x.
Proof.
  unfold NCDzlib.dist.
  destruct (str_eqb src tar) eqn:E.
  - apply str_eqb_eq in E. subst. rewrite str_eqb_refl. auto.
  - assert (E' : str_eqb tar src = false).
    { apply str_eqb_neq. apply str_eqb_neq in E. congruence. }
    rewrite E'.
    destruct (NCDzlib.encode_utf8 src) as [bs|]; simpl; [|discriminate].
    destruct (NCDzlib.encode_utf8 tar) as [bt|]; simpl; [|discriminate].
    destruct (compress bs _) as [cs|]; simpl; [|discriminate].
    destruct (compress bt _) as [ct|]; simpl; [|discriminate].
    destruct (compress (bs ++ bt) _) as [cst|]; simpl; [|discriminate].
    destruct (compress (bt ++ bs) _) as [cts|]; simpl; [|discriminate].
    rewrite (Z.min_comm (NCDzlib.len cts)), (Z.min_comm (NCDzlib.len ct)),
      (Z.max_comm (NCDzlib.len ct)).
    auto.
Qed.

(** ** [LegaliPyTokenizer] and its dependency *)

(** C6: without SyllabiPy the constructor of [LegaliPyTokenizer] raises
    [TypeError]; where a tokenizer has been constructed, SyllabiPy is
    there, and [tokenize] on any tokenizer object hands the string and the
    onsets to SyllabiPy's [LegaliPy]: it raises only what that call raises,
    and returns with the ordered list that call returns. *)
Theorem LegaliPy_fails_at_construction (threshold_t : Type) :
  (forall scaler,
     LegaliPy.init (None : LegaliPy.globals threshold_t) scaler
     = Raise (TypeError
         "LegaliPy tokenizer requires installation of SyllabiPy package."))
  /\ forall (G : LegaliPy.globals threshold_t) scaler constructed,
       LegaliPy.init G scaler = Ok constructed ->
       exists lib,
         G = Some lib
         /\ forall (self : LegaliPy.t) (string : str) (ipa : bool),
              (forall e,
                 LegaliPy.tokenize G self string ipa = Raise e ->
                 LegaliPy.LegaliPy lib string (LegaliPy._onsets self)
                 = Raise e)
              /\ (forall l,
                    LegaliPy.LegaliPy lib string (LegaliPy._onsets self)
                    = Ok l ->
                    exists t,
                      LegaliPy.tokenize G self string ipa = Ok t
                      /\ Tokenizer.get_list (LegaliPy.base t) = l).
Proof.
  split; [reflexivity|].
  intros G scaler constructed Hinit.
  destruct G as [lib|]; [|discriminate Hinit].
  exists lib. split; [reflexivity|].
  intros self string ipa. unfold LegaliPy.tokenize. split.
  - intros e.
    destruct (LegaliPy.LegaliPy lib string (LegaliPy._onsets self));
      simpl; intros E; [discriminate E|inversion E; reflexivity].
  - intros l ->. simpl. eexists. split; reflexivity.
Qed.

Lemma LegaliPy_fails_at_construction_witness :
  let lib : LegaliPy.syllabipy unit :=
    {| LegaliPy.getOnsets := fun _ _ _ => Ok [];
       LegaliPy.LegaliPy := fun string _ => Ok [string] |} in
  LegaliPy.init (Some lib) Tokenizer.ScalerNone
  = Ok {| LegaliPy.base := Tokenizer.init Tokenizer.ScalerNone;
          LegaliPy._onsets := [ [] ] |}
  /\ exists lib',
       Some lib = Some lib'
       /\ forall (self : LegaliPy.t) (string : str) (ipa : bool),
            (forall e,
               LegaliPy.tokenize (Some lib) self string ipa = Raise e ->
               LegaliPy.LegaliPy lib' string (LegaliPy._onsets self)
               = Raise e)
            /\ (forall l,
                  LegaliPy.LegaliPy lib' string (LegaliPy._onsets self)
                  = Ok l ->
                  exists t,
                    LegaliPy.tokenize (Some lib) self string ipa = Ok t
                    /\ Tokenizer.get_list (LegaliPy.base t) = l).
Proof.
  intros lib. split; [reflexivity|].
  apply (proj2 (LegaliPy_fails_at_construction unit) (Some lib)
           Tokenizer.ScalerNone
           {| LegaliPy.base := Tokenizer.init Tokenizer.ScalerNone;
              LegaliPy._onsets := [ [] ] |}).
  reflexivity.
Defined.

(** ** The alphabet of a comparison, in both orders *)

Lemma get_absent (c : Counter) (k : str) : ~ In k (keys c) -> get c k = 0.
Proof.
  induction c as [|[k0 n] c IH]; simpl; intros Hk; [reflexivity|].
  destruct (str_eqb k k0) eqn:E.
  - apply str_eqb_eq in E. subst. exfalso. apply Hk. left. reflexivity.
  - apply IH. intros Hin. apply Hk. right. exact Hin.
Qed.

Lemma NoDup_keys_filter (f : str * nat -> bool) (c : Counter) :
  NoDup (keys c) -> NoDup (keys (filter f c)).
Proof.
  unfold keys. induction c as [|kv c IH]; simpl; intros Hc; [constructor|].
  inversion Hc as [|? ? Hnot Hrest]; subst.
  destruct (f kv); simpl; [|apply IH; exact Hrest].
  constructor; [|apply IH; exact Hrest].
  intros Hin. apply Hnot. apply in_map_iff in Hin as (x & E & Hx).
  apply filter_In in Hx as [Hx _]. rewrite <- E. apply in_map. exact Hx.
Qed.

(** The keys of [a + b]: the tokens of either side whose counts add up to
    something positive. *)
Lemma keys_add (a b : Counter) (k : str) :
  NoDup (keys a) -> NoDup (keys b) ->
  In k (keys (add a b))
  <-> (In k (keys a) \/ In k (keys b)) /\ 0 < get a k + get b k.
Proof.
  intros Ha Hb. unfold add, keys. rewrite map_app, in_app_iff. split.
  - intros [Hin|Hin].
    + apply in_map_iff in Hin as ([k0 n] & E & Hin). simpl in E. subst k0.
      apply filter_In in Hin as [Hin Hpos]. simpl in Hpos.
      apply in_map_iff in Hin as ([k1 n1] & E & Hin). simpl in E.
      inversion E; subst. apply Nat.ltb_lt in Hpos.
      rewrite (get_entry a k n1 Ha Hin). split; [left|exact Hpos].
      apply (in_map fst) in Hin. exact Hin.
    + apply in_map_iff in Hin as ([k0 n] & E & Hin). simpl in E. subst k0.
      apply filter_In in Hin as [Hin Hcond]. simpl in Hcond.
      apply andb_true_iff in Hcond as [Hmem Hpos].
      apply negb_true_iff in Hmem. apply Nat.ltb_lt in Hpos.
      assert (Hna : ~ In k (keys a)).
      { intros Hk. apply mem_keys in Hk. congruence. }
      rewrite (get_absent a k Hna), (get_entry b k n Hb Hin).
      split; [right|exact Hpos]. apply (in_map fst) in Hin. exact Hin.
  - intros [Hk Hpos].
    destruct (in_dec str_eq_dec k (map fst a)) as [Hka|Hka].
    + left. apply in_map_iff in Hka as ([k0 n] & E & Hin). simpl in E.
      subst k0. apply in_map_iff. exists (k, n + get b k). split; [reflexivity|].
      apply filter_In. split.
      * apply in_map_iff. exists (k, n). split; [reflexivity|exact Hin].
      * simpl. apply Nat.ltb_lt. rewrite (get_entry a k n Ha Hin) in Hpos.
        exact Hpos.
    + right. destruct Hk as [Hk|Hk]; [contradiction|].
      apply in_map_iff in Hk as ([k0 n] & E & Hin). simpl in E. subst k0.
      apply in_map_iff. exists (k, n). split; [reflexivity|].
      apply filter_In. split; [exact Hin|]. simpl.
      apply andb_true_iff. split.
      * apply negb_true_iff. destruct (mem a k) eqn:Hm; [|reflexivity].
        apply mem_keys in Hm. contradiction.
      * apply Nat.ltb_lt.
        rewrite (get_absent a k Hka), (get_entry b k n Hb Hin) in Hpos.
        exact Hpos.
Qed.

Lemma NoDup_keys_add (a b : Counter) :
  NoDup (keys a) -> NoDup (keys b) -> NoDup (keys (add a b)).
Proof.
  intros Ha Hb. unfold add, keys. rewrite map_app. apply NoDup_app.
  - apply (NoDup_keys_filter (fun kv => 0 <? snd kv)).
    unfold keys. rewrite map_map. exact Ha.
  - apply (NoDup_keys_filter
             (fun kv => negb (mem a (fst kv)) && (0 <? snd kv))). exact Hb.
  - intros k Hin1 Hin2.
    apply in_map_iff in Hin1 as (x & E1 & Hx).
    apply filter_In in Hx as [Hx _].
    apply in_map_iff in Hx as (y & Ey & Hy). subst x. simpl in E1.
    apply in_map_iff in Hin2 as (z & E2 & Hz).
    apply filter_In in Hz as [_ Hcond].
    apply andb_true_iff in Hcond as [Hmem _]. apply negb_true_iff in Hmem.
    assert (Hk : mem a (fst z) = true).
    { apply mem_keys. rewrite E2, <- E1. apply in_map. exact Hy. }
    congruence.
Qed.

(** Swapping the two strings permutes the summands of
    [Lorentzian.dist_abs]: the same terms are added, in the key order of the
    other Counter sum. *)
Lemma Lorentzian_terms_swap `{PyFloat}
      (tokenizer : TokenDistance.tokenizer_t) (src tar : str) :
  Permutation
    (Lorentzian.terms (TokenDistance._tokenize tokenizer src tar))
    (Lorentzian.terms (TokenDistance._tokenize tokenizer tar src)).
Proof.
  unfold Lorentzian.terms, TokenDistance._total, TokenDistance._tokenize.
  simpl.
  set (a := TokenDistance.counter_for tokenizer src).
  set (b := TokenDistance.counter_for tokenizer tar).
  assert (Ha : NoDup (keys a)) by apply counter_for_NoDup.
  assert (Hb : NoDup (keys b)) by apply counter_for_NoDup.
  rewrite (map_ext
             (fun tok => log1p (Z.abs (Z.of_nat (get b tok)
                                       - Z.of_nat (get a tok))))
             (fun tok => log1p (Z.abs (Z.of_nat (get a tok)
                                       - Z.of_nat (get b tok))))).
  2:{ intros tok. f_equal. lia. }
  apply Permutation_map. apply NoDup_Permutation.
  - apply NoDup_keys_add; assumption.
  - apply NoDup_keys_add; assumption.
  - intros k. rewrite (keys_add a b k Ha Hb), (keys_add b a k Hb Ha).
    rewrite (Nat.add_comm (get b k)). tauto.
Qed.

(** Where float addition is associative and commutative the two sums
    agree. *)
Lemma Lorentzian_dist_abs_swap_exact `{PyFloat}
      (tokenizer : TokenDistance.tokenizer_t) (src tar : str) :
  (forall x y z, fadd (fadd x y) z = fadd x (fadd y z)) ->
  (forall x y, fadd x y = fadd y x) ->
  Lorentzian.dist_abs tokenizer src tar
  = Lorentzian.dist_abs tokenizer tar src.
Proof.
  intros Hassoc Hcomm. unfold Lorentzian.dist_abs, fsum.
  generalize zero.
  induction (Lorentzian_terms_swap tokenizer src tar)
    as [|x l l' _ IH|x y l|l l' l'' _ IH1 _ IH2]; intros z; simpl.
  - reflexivity.
  - apply IH.
  - f_equal. rewrite !Hassoc. f_equal. apply Hcomm.
  - rewrite IH1. apply IH2.
Qed.

(** ** The two distances with their arguments swapped *)

Module InBinary64.

Import PrimFloat.

(** C4, as stated, fails for [Lorentzian.dist_abs] in binary64 arithmetic.
    Under the SAPS tokenizer "ba" has the token ba once and "dododolololo"
    has do and lo three times each.  The call on ("ba", "dododolololo")
    adds log1p(1), log1p(3), log1p(3) in this order, the call on the
    swapped pair adds log1p(3), log1p(3), log1p(1), and the two sums round
    differently: 3.465735902799726 against 3.4657359027997265. *)
Lemma Lorentzian_dist_abs_not_symmetric :
  @Lorentzian.dist_abs Binary64.binary64
    (TokenDistance.saps Tokenizer.ScalerNone)
    (lit "ba") (lit "dododolololo")
  = 0x1.bb9d3beb8c86ap+1%float
  /\ @Lorentzian.dist_abs Binary64.binary64
       (TokenDistance.saps Tokenizer.ScalerNone)
       (lit "dododolololo") (lit "ba")
     = 0x1.bb9d3beb8c86bp+1%float
  /\ @Lorentzian.dist_abs Binary64.binary64
       (TokenDistance.saps Tokenizer.ScalerNone)
       (lit "ba") (lit "dododolololo")
     <> @Lorentzian.dist_abs Binary64.binary64
          (TokenDistance.saps Tokenizer.ScalerNone)
          (lit "dododolololo") (lit "ba").
Proof.
  assert (E1 : @Lorentzian.dist_abs Binary64.binary64
                 (TokenDistance.saps Tokenizer.ScalerNone)
                 (lit "ba") (lit "dododolololo")
               = 0x1.bb9d3beb8c86ap+1%float) by (vm_compute; reflexivity).
  assert (E2 : @Lorentzian.dist_abs Binary64.binary64
                 (TokenDistance.saps Tokenizer.ScalerNone)
                 (lit "dododolololo") (lit "ba")
               = 0x1.bb9d3beb8c86bp+1%float) by (vm_compute; reflexivity).
  split; [exact E1|]. split; [exact E2|].
  rewrite E1, E2. intros H.
  assert (Hne : PrimFloat.eqb 0x1.bb9d3beb8c86ap+1%float
                  0x1.bb9d3beb8c86bp+1%float = false)
    by (vm_compute; reflexivity).
  rewrite H in Hne. vm_compute in Hne. discriminate Hne.
Qed.

(** The same happens on ("baca", "dodo"), where the terms are log1p(1),
    log1p(1), log1p(2) in one order and log1p(2), log1p(1), log1p(1) in
    the other. *)
Example Lorentzian_dist_abs_baca_dodo :
  @Lorentzian.dist_abs Binary64.binary64
    (TokenDistance.saps Tokenizer.ScalerNone) (lit "baca") (lit "dodo")
  = 0x1.3e116bcd39e7cp+1%float
  /\ @Lorentzian.dist_abs Binary64.binary64
       (TokenDistance.saps Tokenizer.ScalerNone) (lit "dodo") (lit "baca")
     = 0x1.3e116bcd39e7dp+1%float.
Proof. split; vm_compute; reflexivity. Qed.

End InBinary64.

(** C4, as amended: swapping the two strings leaves [NCDzlib.dist]
    unchanged, which returns the same number in both orders and raises in
    one order exactly when it raises in the other.  [Lorentzian.dist_abs]
    is in both orders the sum of the same terms, one
    [log1p(|src[tok] - tar[tok]|)] for each token of the alphabet, added in
    the key order of the Counter sum, which differs between the two
    orders; the two results are equal wherever float addition is
    associative and commutative, as it is in exact arithmetic. *)
Theorem distances_under_swap `{PyFloat}
        (tokenizer : TokenDistance.tokenizer_t)
        (compress : NCDzlib.bytes -> Z -> result NCDzlib.bytes)
        (ncd : NCDzlib.t) (src tar : str) :
  (forall x,
     NCDzlib.dist compress ncd src tar = Ok x
     <-> NCDzlib.dist compress ncd tar src = Ok x)
  /\ ((exists e, NCDzlib.dist compress ncd src tar = Raise e)
      <-> (exists e, NCDzlib.dist compress ncd tar src = Raise e))
  /\ Lorentzian.dist_abs tokenizer src tar
     = fsum (Lorentzian.terms (TokenDistance._tokenize tokenizer src tar))
  /\ Lorentzian.dist_abs tokenizer tar src
     = fsum (Lorentzian.terms (TokenDistance._tokenize tokenizer tar src))
  /\ Permutation
       (Lorentzian.terms (TokenDistance._tokenize tokenizer src tar))
       (Lorentzian.terms (TokenDistance._tokenize tokenizer tar src))
  /\ ((forall x y z, fadd (fadd x y) z = fadd x (fadd y z)) ->
      (forall x y, fadd x y = fadd y x) ->
      Lorentzian.dist_abs tokenizer src tar
      = Lorentzian.dist_abs tokenizer tar src).
Proof.
  assert (Hswap : forall a b x,
            NCDzlib.dist compress ncd a b = Ok x <->
            NCDzlib.dist compress ncd b a = Ok x)
    by (intros a b x; split; apply NCDzlib_dist_swap).
  split; [apply Hswap|]. split; [|split; [reflexivity|split; [reflexivity|]]].
  - split; intros [e He].
    + destruct (NCDzlib.dist compress ncd tar src) as [x|e'] eqn:E;
        [|exists e'; reflexivity].
      apply Hswap in E. congruence.
    + destruct (NCDzlib.dist compress ncd src tar) as [x|e'] eqn:E;
        [|exists e'; reflexivity].
      apply Hswap in E. congruence.
  - split; [apply Lorentzian_terms_swap|].
    apply Lorentzian_dist_abs_swap_exact.
Qed.

Lemma distances_under_swap_witness :
  (forall x y z : R, (x + y + z = x + (y + z))%R)
  /\ (forall x y : R, (x + y = y + x)%R)
  /\ @Lorentzian.dist_abs exact_float
       (TokenDistance.saps Tokenizer.ScalerNone)
       (lit "ba") (lit "dododolololo")
     = @Lorentzian.dist_abs exact_float
         (TokenDistance.saps Tokenizer.ScalerNone)
         (lit "dododolololo") (lit "ba").
Proof.
  split; [exact Rplus_assoc|]. split; [exact Rplus_comm|].
  exact (proj2 (proj2 (proj2 (proj2 (proj2
           (@distances_under_swap exact_float
              (TokenDistance.saps Tokenizer.ScalerNone)
              (fun data _ => Ok data)
              (NCDzlib.init NCDzlib.Z_DEFAULT_COMPRESSION)
              (lit "ba") (lit "dododolololo"))))))
           Rplus_assoc Rplus_comm).
Defined.

(* ===================================================================== *)
(** * Further properties *)
(* ===================================================================== *)

(** ** [SAPSTokenizer.tokenize] on arbitrary strings *)

Lemma last_word_no_space (string : str) :
  no_space (last (split string) []) = true.
Proof.
  pose proof (split_words string) as Hall.
  destruct (split string) as [|w ws] eqn:E; [reflexivity|].
  assert (Hne : w :: ws <> []) by discriminate.
  destruct (exists_last Hne) as (ws' & w' & Hsplit).
  rewrite Hsplit in *. rewrite last_last.
  apply Forall_app in Hall as [_ Hall].
  inversion Hall as [|? ? [_ H] _]. exact H.
Qed.

Lemma for_words_spec (words : list str) :
  exists l,
    SAPS.for_words words [] = Some l
    /\ SyllableRule.splits SyllableRule.ends_in_vowel (last words []) l
    /\ concat l = last words [].
Proof.
  destruct words as [|w ws].
  - exists []. repeat split. constructor.
  - assert (Hne : w :: ws <> []) by discriminate.
    destruct (exists_last Hne) as (ws' & w' & ->).
    rewrite for_words_last, last_last. apply for_body_spec.
Qed.

Lemma tokenize_spec (self : Tokenizer.t) (string : str) :
  exists l,
    SAPS.tokenize self string
    = Some {| Tokenizer._scaler := Tokenizer._scaler self;
              Tokenizer._string := string;
              Tokenizer._ordered_list := l;
              Tokenizer._tokens :=
                Tokenizer.scale (Tokenizer._scaler self) (counter_of l) |}
    /\ SyllableRule.splits SyllableRule.ends_in_vowel
         (last (split string) []) l
    /\ concat l = last (split string) [].
Proof.
  unfold SAPS.tokenize.
  destruct (for_words_spec (split string)) as (l & -> & Hs & Hc).
  exists l. repeat split; assumption.
Qed.

(** X1: on every string [SAPSTokenizer.tokenize] returns, remembers the
    string, and leaves the ordered token list it leaves for the last
    whitespace-separated word alone (the empty string when there is no
    word); the tokens, concatenated in order, are that word. *)
Theorem SAPS_tokens_partition_last_word (self : Tokenizer.t) (string : str) :
  exists t t',
    SAPS.tokenize self string = Some t
    /\ SAPS.tokenize self (last (split string) []) = Some t'
    /\ Tokenizer._string t = string
    /\ Tokenizer.get_list t = Tokenizer.get_list t'
    /\ concat (Tokenizer.get_list t) = last (split string) [].
Proof.
  destruct (tokenize_spec self string) as (l & Ht & Hs & Hc).
  destruct (tokenize_one_word self _ (last_word_no_space string))
    as (l' & Ht' & Hs' & _).
  eexists. eexists. split; [exact Ht|]. split; [exact Ht'|]. simpl.
  split; [reflexivity|]. split; [|exact Hc].
  exact (splits_functional _ _ _ _ Hs Hs').
Qed.

(** *** The shape of a syllable *)

Lemma leading_vowels_all (s : str) :
  forallb SyllableRule.is_vowel (fst (SyllableRule.leading_vowels s)) = true.
Proof.
  induction s as [|c s IH]; simpl; [reflexivity|].
  destruct (SyllableRule.is_vowel c) eqn:Hc; [|reflexivity].
  destruct (SyllableRule.leading_vowels s) as [vs rest]. simpl in *.
  rewrite Hc. exact IH.
Qed.

Lemma first_syllable_shape (w syll rest : str) :
  SyllableRule.first_syllable SyllableRule.ends_in_vowel w
  = Some (syll, rest) ->
  w = syll ++ rest
  /\ exists c vs coda,
       syll = c :: vs ++ coda
       /\ forallb SyllableRule.is_vowel vs = true
       /\ (coda = []
           \/ exists k,
                coda = [k]
                /\ Syllable.consonant k = true
                /\ SyllableRule.ends_in_vowel (c :: vs) = true).
Proof.
  unfold SyllableRule.first_syllable. destruct w as [|c w]; [discriminate|].
  pose proof (leading_vowels_app w) as Happ.
  pose proof (leading_vowels_all w) as Hall.
  destruct (SyllableRule.leading_vowels w) as [vs rest1]. simpl in Happ, Hall.
  destruct rest1 as [|k rest2].
  - intros E. inversion E; subst. split; [reflexivity|].
    exists c, vs, []. rewrite app_nil_r. auto.
  - destruct (SyllableRule.ends_in_vowel (c :: vs)) eqn:Hend;
      [destruct (SyllableRule.coda_follows (k :: rest2)) eqn:Hcoda|];
      simpl; intros E; inversion E; subst.
    + split; [simpl; rewrite <- app_assoc; reflexivity|].
      exists c, vs, [k]. split; [reflexivity|]. split; [exact Hall|].
      right. exists k. split; [reflexivity|]. split; [|exact Hend].
      unfold Syllable.consonant.
      match type of Hcoda with
      | SyllableRule.coda_follows (_ :: ?r) = _ => destruct r
      end; simpl in Hcoda; [exact Hcoda|].
      apply andb_true_iff in Hcoda as [Hk _]. exact Hk.
    + split; [reflexivity|]. exists c, vs, []. rewrite app_nil_r. auto.
    + split; [reflexivity|]. exists c, vs, []. rewrite app_nil_r. auto.
Qed.

Lemma ends_in_vowel_tail (c v : char) (vs : str) :
  SyllableRule.ends_in_vowel (c :: v :: vs)
  = SyllableRule.ends_in_vowel (v :: vs).
Proof.
  unfold SyllableRule.ends_in_vowel.
  change (rev (c :: v :: vs)) with (rev (v :: vs) ++ [c]).
  destruct (rev (v :: vs)) as [|x r] eqn:E; [|reflexivity].
  apply (f_equal (@length char)) in E. rewrite length_rev in E.
  discriminate E.
Qed.

Lemma shape_no_consonant_pair (vs : str) :
  forall (c : char) (coda : str),
    forallb SyllableRule.is_vowel vs = true ->
    (coda = []
     \/ exists k,
          coda = [k]
          /\ Syllable.consonant k = true
          /\ SyllableRule.ends_in_vowel (c :: vs) = true) ->
    Syllable.has_consonant_pair (c :: vs ++ coda) = false.
Proof.
  induction vs as [|v vs IH]; intros c coda Hvs Hcoda.
  - destruct Hcoda as [->|(k & -> & _ & Hend)]; [reflexivity|].
    simpl. unfold Syllable.consonant.
    unfold SyllableRule.ends_in_vowel in Hend. simpl in Hend.
    rewrite Hend. reflexivity.
  - simpl in Hvs. apply andb_true_iff in Hvs as [Hv Hvs].
    change (Syllable.has_consonant_pair (c :: (v :: vs) ++ coda))
      with (Syllable.consonant c && Syllable.consonant v
            || Syllable.has_consonant_pair (v :: vs ++ coda)).
    unfold Syllable.consonant at 2. rewrite Hv, andb_false_r. simpl orb.
    apply IH; [exact Hvs|].
    destruct Hcoda as [->|(k & -> & Hk & Hend)]; [left; reflexivity|].
    right. exists k. rewrite ends_in_vowel_tail in Hend. auto.
Qed.

Lemma no_space_concat (l : list str) :
  no_space (concat l) = true -> Forall (fun tok => no_space tok = true) l.
Proof.
  induction l as [|tok l IH]; simpl; intros H; [constructor|].
  unfold no_space in H. rewrite forallb_app in H.
  apply andb_true_iff in H as [H1 H2]. constructor; [exact H1|].
  apply IH. exact H2.
Qed.

Lemma splits_shapes (w : str) (l : list str) :
  SyllableRule.splits SyllableRule.ends_in_vowel w l ->
  Forall (fun tok =>
            exists c vs coda,
              tok = c :: vs ++ coda
              /\ forallb SyllableRule.is_vowel vs = true
              /\ (coda = []
                  \/ exists k,
                       coda = [k]
                       /\ Syllable.consonant k = true
                       /\ SyllableRule.ends_in_vowel (c :: vs) = true)) l.
Proof.
  induction 1 as [|w syll rest l Hfirst _ IH]; constructor; [|exact IH].
  apply first_syllable_shape in Hfirst as [_ H]. exact H.
Qed.

(** X2: every token that [SAPSTokenizer.tokenize] returns is one character
    followed by vowels only and then by at most one consonant, and a token
    closes with that consonant only when the character before it is a
    vowel. *)
Theorem SAPS_token_shape (self : Tokenizer.t) (string : str) :
  exists t,
    SAPS.tokenize self string = Some t
    /\ Forall (fun tok =>
                 exists c vs coda,
                   tok = c :: vs ++ coda
                   /\ forallb SyllableRule.is_vowel vs = true
                   /\ (coda = []
                       \/ exists k,
                            coda = [k]
                            /\ Syllable.consonant k = true
                            /\ SyllableRule.ends_in_vowel (c :: vs) = true))
         (Tokenizer.get_list t).
Proof.
  destruct (tokenize_spec self string) as (l & Ht & Hs & _).
  eexists. split; [exact Ht|]. simpl. apply splits_shapes in Hs. exact Hs.
Qed.

(** X3: no token of [SAPSTokenizer.tokenize] is empty, none contains a
    whitespace character, and none contains two consonants side by side:
    a cluster of consonants is always cut. *)
Theorem SAPS_token_no_consonant_pair (self : Tokenizer.t) (string : str) :
  exists t,
    SAPS.tokenize self string = Some t
    /\ Forall (fun tok =>
                 tok <> []
                 /\ no_space tok = true
                 /\ Syllable.has_consonant_pair tok = false)
         (Tokenizer.get_list t).
Proof.
  destruct (tokenize_spec self string) as (l & Ht & Hs & Hc).
  eexists. split; [exact Ht|]. simpl.
  pose proof (splits_shapes _ _ Hs) as Hshape.
  pose proof (last_word_no_space string) as Hw. rewrite <- Hc in Hw.
  apply no_space_concat in Hw.
  rewrite Forall_forall in *. intros tok Htok.
  destruct (Hshape tok Htok) as (c & vs & coda & -> & Hvs & Hcoda).
  split; [discriminate|]. split; [exact (Hw _ Htok)|].
  apply shape_no_consonant_pair; assumption.
Qed.

(** *** Strings without a word *)

Lemma split_from_nil (s cur : str) :
  split_from cur s = [] <-> cur = [] /\ forallb isspace s = true.
Proof.
  revert cur. induction s as [|c s IH]; intros cur; simpl.
  - destruct cur; split; intros H; try discriminate; auto.
    destruct H as [H _]. discriminate H.
  - destruct (isspace c) eqn:Hc; simpl.
    + destruct cur as [|x cur].
      * rewrite IH. tauto.
      * split; [discriminate|]. intros [H _]. discriminate H.
    + rewrite IH. split; intros [H1 H2]; try discriminate.
      destruct cur; discriminate H1.
Qed.

Lemma split_nil (s : str) : split s = [] <-> forallb isspace s = true.
Proof. unfold split. rewrite split_from_nil. tauto. Qed.

(** X4: [SAPSTokenizer.tokenize] returns no token exactly for the strings
    that hold no word: the empty string and the strings of whitespace. *)
Theorem SAPS_no_tokens_iff_blank (self : Tokenizer.t) (string : str) :
  exists t,
    SAPS.tokenize self string = Some t
    /\ (Tokenizer.get_list t = [] <-> forallb isspace string = true).
Proof.
  destruct (tokenize_spec self string) as (l & Ht & Hs & Hc).
  eexists. split; [exact Ht|]. simpl. rewrite <- split_nil. split.
  - intros ->. simpl in Hc.
    pose proof (split_words string) as Hall.
    destruct (split string) as [|w ws]; [reflexivity|].
    assert (Hne : w :: ws <> []) by discriminate.
    destruct (exists_last Hne) as (ws' & w' & E). rewrite E in *.
    rewrite last_last in Hc. apply Forall_app in Hall as [_ Hall].
    inversion Hall as [|? ? [Hw _] _]. congruence.
  - intros E. rewrite E in Hs. simpl in Hs.
    inversion Hs as [|? ? ? ? Hfirst]; [reflexivity|]. discriminate Hfirst.
Qed.

(** *** Words of one kind of character *)

Lemma splits_consonants (w : str) :
  forallb Syllable.consonant w = true ->
  SyllableRule.splits SyllableRule.ends_in_vowel w (map (fun c => [c]) w).
Proof.
  induction w as [|c w IH]; intros Hw; simpl; [constructor|].
  simpl in Hw. apply andb_true_iff in Hw as [Hc Hw].
  unfold Syllable.consonant in Hc. apply negb_true_iff in Hc.
  apply SyllableRule.splits_cons with (rest := w); [|apply IH; exact Hw].
  unfold SyllableRule.first_syllable. destruct w as [|d w]; [reflexivity|].
  simpl in Hw. apply andb_true_iff in Hw as [Hd _].
  unfold Syllable.consonant in Hd. apply negb_true_iff in Hd.
  simpl. rewrite Hd.
  unfold SyllableRule.ends_in_vowel. simpl. rewrite Hc. reflexivity.
Qed.

(** X5: when the last word of the string has no vowel,
    [SAPSTokenizer.tokenize] returns its characters one by one. *)
Theorem SAPS_consonants_split_apart (self : Tokenizer.t) (string : str) :
  forallb Syllable.consonant (last (split string) []) = true ->
  exists t,
    SAPS.tokenize self string = Some t
    /\ Tokenizer.get_list t
       = map (fun c => [c]) (last (split string) []).
Proof.
  intros Hw. destruct (tokenize_spec self string) as (l & Ht & Hs & _).
  eexists. split; [exact Ht|]. simpl.
  exact (splits_functional _ _ _ _ Hs (splits_consonants _ Hw)).
Qed.

Lemma SAPS_consonants_split_apart_witness :
  forallb Syllable.consonant (last (split (lit "a  psst")) []) = true
  /\ exists t,
       SAPS.tokenize (SAPS.init Tokenizer.ScalerNone) (lit "a  psst") = Some t
       /\ Tokenizer.get_list t
          = map (fun c => [c]) (last (split (lit "a  psst")) []).
Proof.
  split; [reflexivity|].
  apply (SAPS_consonants_split_apart
           (SAPS.init Tokenizer.ScalerNone) (lit "a  psst")).
  reflexivity.
Defined.

Lemma leading_vowels_only (vs : str) :
  forallb SyllableRule.is_vowel vs = true ->
  SyllableRule.leading_vowels vs = (vs, []).
Proof.
  induction vs as [|v vs IH]; simpl; intros H; [reflexivity|].
  apply andb_true_iff in H as [Hv Hvs]. rewrite Hv, (IH Hvs). reflexivity.
Qed.

(** X6: when the last word of the string is one character followed by
    vowels only, [SAPSTokenizer.tokenize] returns that word as its single
    token. *)
Theorem SAPS_vowel_run_one_token
        (self : Tokenizer.t) (string : str) (c : char) (vs : str) :
  last (split string) [] = c :: vs ->
  forallb SyllableRule.is_vowel vs = true ->
  exists t,
    SAPS.tokenize self string = Some t
    /\ Tokenizer.get_list t = [c :: vs].
Proof.
  intros Hlast Hvs. destruct (tokenize_spec self string) as (l & Ht & Hs & _).
  eexists. split; [exact Ht|]. simpl. rewrite Hlast in Hs.
  apply (splits_functional _ _ _ _ Hs).
  apply SyllableRule.splits_cons with (rest := []); [|constructor].
  unfold SyllableRule.first_syllable. rewrite (leading_vowels_only vs Hvs).
  reflexivity.
Qed.

Lemma SAPS_vowel_run_one_token_witness :
  last (split (lit "how are you")) [] = 121%N :: lit "ou"
  /\ forallb SyllableRule.is_vowel (lit "ou") = true
  /\ exists t,
       SAPS.tokenize (SAPS.init Tokenizer.ScalerNone) (lit "how are you")
       = Some t
       /\ Tokenizer.get_list t = [121%N :: lit "ou"].
Proof.
  split; [reflexivity|]. split; [reflexivity|].
  apply (SAPS_vowel_run_one_token
           (SAPS.init Tokenizer.ScalerNone) (lit "how are you")
           121%N (lit "ou")); reflexivity.
Defined.

(** *** Recoding the characters *)

Section Recoding.

Variable f : char -> char.
Hypothesis f_vowel : forall c, SyllableRule.is_vowel (f c) = SyllableRule.is_vowel c.
Hypothesis f_space : forall c, isspace (f c) = isspace c.

Lemma leading_vowels_map (s : str) :
  SyllableRule.leading_vowels (map f s)
  = (map f (fst (SyllableRule.leading_vowels s)),
     map f (snd (SyllableRule.leading_vowels s))).
Proof.
  induction s as [|c s IH]; simpl; [reflexivity|].
  rewrite f_vowel. destruct (SyllableRule.is_vowel c); [|reflexivity].
  rewrite IH. destruct (SyllableRule.leading_vowels s). reflexivity.
Qed.

Lemma ends_in_vowel_map (b : str) :
  SyllableRule.ends_in_vowel (map f b) = SyllableRule.ends_in_vowel b.
Proof.
  unfold SyllableRule.ends_in_vowel. rewrite <- map_rev.
  destruct (rev b); simpl; [reflexivity|apply f_vowel].
Qed.

Lemma coda_follows_map (r : str) :
  SyllableRule.coda_follows (map f r) = SyllableRule.coda_follows r.
Proof.
  destruct r as [|k [|k2 r]]; simpl; rewrite ?f_vowel; reflexivity.
Qed.

Lemma first_syllable_map (w : str) :
  SyllableRule.first_syllable SyllableRule.ends_in_vowel (map f w)
  = match SyllableRule.first_syllable SyllableRule.ends_in_vowel w with
    | Some (syll, rest) => Some (map f syll, map f rest)
    | None => None
    end.
Proof.
  unfold SyllableRule.first_syllable. destruct w as [|c w]; [reflexivity|].
  cbn [map]. rewrite leading_vowels_map.
  destruct (SyllableRule.leading_vowels w) as [vs rest1]. cbn [fst snd].
  change (f c :: map f vs) with (map f (c :: vs)).
  destruct rest1 as [|k rest2]; [reflexivity|].
  change (map f (k :: rest2)) with (f k :: map f rest2) at 1.
  cbv iota.
  change (f k :: map f rest2) with (map f (k :: rest2)).
  rewrite ends_in_vowel_map, coda_follows_map.
  destruct (SyllableRule.ends_in_vowel (c :: vs)
            && SyllableRule.coda_follows (k :: rest2)); [|reflexivity].
  rewrite map_app. reflexivity.
Qed.

Lemma splits_map (w : str) (l : list str) :
  SyllableRule.splits SyllableRule.ends_in_vowel w l ->
  SyllableRule.splits SyllableRule.ends_in_vowel (map f w) (map (map f) l).
Proof.
  induction 1 as [|w syll rest l Hfirst _ IH]; simpl; [constructor|].
  apply SyllableRule.splits_cons with (rest := map f rest); [|exact IH].
  rewrite first_syllable_map, Hfirst. reflexivity.
Qed.

Lemma split_from_map (s cur : str) :
  split_from (map f cur) (map f s) = map (map f) (split_from cur s).
Proof.
  revert cur. induction s as [|c s IH]; intros cur; simpl.
  - destruct cur; reflexivity.
  - rewrite f_space. destruct (isspace c).
    + destruct cur as [|x cur]; simpl.
      * apply (IH []).
      * f_equal. apply (IH []).
    + rewrite <- IH, map_app. reflexivity.
Qed.

Lemma last_map_map (l : list str) :
  last (map (map f) l) [] = map f (last l []).
Proof.
  induction l as [|a l IH]; [reflexivity|].
  destruct l as [|b l]; [reflexivity|]. exact IH.
Qed.

(** X7: the syllable boundaries depend only on which characters are
    vowels and which are whitespace.  Recoding the string character by
    character, in a way that keeps vowels vowels, consonants consonants
    and whitespace whitespace, recodes the tokens of
    [SAPSTokenizer.tokenize] and moves no boundary. *)
Theorem SAPS_tokenize_recoded (self : Tokenizer.t) (string : str) :
  exists t t',
    SAPS.tokenize self (map f string) = Some t
    /\ SAPS.tokenize self string = Some t'
    /\ Tokenizer.get_list t = map (map f) (Tokenizer.get_list t').
Proof.
  destruct (tokenize_spec self (map f string)) as (l & Ht & Hs & _).
  destruct (tokenize_spec self string) as (l' & Ht' & Hs' & _).
  eexists. eexists. split; [exact Ht|]. split; [exact Ht'|]. simpl.
  apply (splits_functional _ _ _ _ Hs).
  replace (split (map f string)) with (map (map f) (split string))
    by (symmetry; apply (split_from_map string [])).
  rewrite last_map_map.
  apply splits_map. exact Hs'.
Qed.

End Recoding.

Lemma upper_cases (c : char) :
  Syllable.upper c = c
  \/ exists n, n < 26 /\ c = (97 + N.of_nat n)%N.
Proof.
  unfold Syllable.upper.
  destruct ((97 <=? c)%N && (c <=? 122)%N) eqn:E; [right|left; reflexivity].
  apply andb_true_iff in E as [E1 E2].
  apply N.leb_le in E1. apply N.leb_le in E2.
  exists (N.to_nat (c - 97)). split; lia.
Qed.

Lemma upper_vowel (c : char) :
  SyllableRule.is_vowel (Syllable.upper c) = SyllableRule.is_vowel c.
Proof.
  destruct (upper_cases c) as [->|(n & Hn & ->)]; [reflexivity|].
  do 26 (destruct n as [|n]; [reflexivity|]). lia.
Qed.

Lemma upper_space (c : char) : isspace (Syllable.upper c) = isspace c.
Proof.
  destruct (upper_cases c) as [->|(n & Hn & ->)]; [reflexivity|].
  do 26 (destruct n as [|n]; [reflexivity|]). lia.
Qed.

Lemma SAPS_tokenize_recoded_witness :
  (forall c, SyllableRule.is_vowel (Syllable.upper c)
             = SyllableRule.is_vowel c)
  /\ (forall c, isspace (Syllable.upper c) = isspace c)
  /\ exists t t',
       SAPS.tokenize (SAPS.init Tokenizer.ScalerNone)
         (map Syllable.upper (lit "my entreatment")) = Some t
       /\ SAPS.tokenize (SAPS.init Tokenizer.ScalerNone)
            (lit "my entreatment") = Some t'
       /\ Tokenizer.get_list t
          = map (map Syllable.upper) (Tokenizer.get_list t').
Proof.
  split; [exact upper_vowel|]. split; [exact upper_space|].
  exact (SAPS_tokenize_recoded Syllable.upper upper_vowel upper_space
           (SAPS.init Tokenizer.ScalerNone) (lit "my entreatment")).
Defined.

(** ** [Count.fingerprint] for every width *)

Section CountWidths.

Local Open Scope Z_scope.

Lemma for_letters_negative (word : str) (most_common : list char) :
  forall fp n_bits,
    n_bits < 0 ->
    snd (Count.for_letters most_common word fp n_bits) < 0.
Proof.
  induction most_common as [|letter mc IH]; intros fp n_bits Hn; simpl.
  - exact Hn.
  - destruct (Z.eqb_spec n_bits 0) as [E|_]; [lia|]. apply IH. lia.
Qed.

Lemma width_even (n_bits : Z) : Count.width n_bits mod 2 = 0.
Proof.
  unfold Count.width.
  pose proof (Z.mod_pos_bound n_bits 2 ltac:(lia)) as Hb.
  pose proof (Z.div_mod n_bits 2 ltac:(lia)) as Hd.
  assert (Hc : n_bits mod 2 = 0 \/ n_bits mod 2 = 1) by lia.
  destruct Hc as [E|E]; rewrite E.
  - rewrite Z.add_0_r. exact E.
  - replace (n_bits + 1) with (0 + (n_bits / 2 + 1) * 2) by lia.
    apply Z_mod_plus_full.
Qed.

Lemma width_rounds (n_bits : Z) :
  (if n_bits mod 2 =? 0 then n_bits else n_bits + 1) = Count.width n_bits.
Proof.
  unfold Count.width.
  pose proof (Z.mod_pos_bound n_bits 2 ltac:(lia)) as Hb.
  destruct (Z.eqb_spec (n_bits mod 2) 0) as [E|E]; lia.
Qed.

(** The value returned for an even width that is not negative. *)
Lemma fingerprint_even (m : Z) (most_common : list char) (word : str) :
  0 <= m -> m mod 2 = 0 ->
  Count.fingerprint (Count.init m most_common) word
  = Ok (Count.of_digits4 (Count.fields m most_common word)).
Proof.
  intros Hpos Heven.
  set (k := Z.to_nat (m / 2)).
  assert (Hm : m = 2 * Z.of_nat k).
  { unfold k. rewrite Z2Nat.id by (apply Z.div_pos; lia).
    pose proof (Z.div_mod m 2 ltac:(lia)). lia. }
  unfold Count.fingerprint, Count.init.
  cbn [Count._n_bits Count._most_common].
  rewrite Heven. cbn [Z.eqb]. rewrite Hm at 1. rewrite for_letters_spec.
  unfold Count.of_digits4, Count.fields. fold k.
  set (letters := firstn k most_common).
  rewrite fold_left_app, fold_step_zeros.
  destruct (Z.eqb_spec (2 * Z.of_nat (k - length letters)) 0) as [E|E].
  - replace (k - length letters)%nat with 0%nat by lia.
    simpl. f_equal. lia.
  - destruct (Z.ltb_spec (2 * Z.of_nat (k - length letters)) 0) as [L|_];
      [lia|].
    f_equal. rewrite Z.shiftl_mul_pow2 by lia. f_equal.
    rewrite Z.pow_mul_r by lia. reflexivity.
Qed.

(** The outcome of [fingerprint] for every integer width. *)
Lemma fingerprint_outcome
      (n_bits : Z) (most_common : list char) (word : str) :
  Count.fingerprint (Count.init n_bits most_common) word
  = if n_bits <? -1
    then Raise (ValueError "negative shift count")
    else Ok (Count.of_digits4
               (Count.fields (Count.width n_bits) most_common word)).
Proof.
  pose proof (width_even n_bits) as Heven.
  pose proof (Z.mod_pos_bound n_bits 2 ltac:(lia)) as Hb.
  pose proof (Z.div_mod n_bits 2 ltac:(lia)) as Hd.
  assert (Hsame :
    Count.fingerprint (Count.init n_bits most_common) word
    = Count.fingerprint (Count.init (Count.width n_bits) most_common) word).
  { unfold Count.fingerprint, Count.init.
    cbn [Count._n_bits Count._most_common].
    rewrite Heven. cbn [Z.eqb]. rewrite width_rounds. reflexivity. }
  rewrite Hsame.
  destruct (Z.ltb_spec n_bits (-1)) as [Hneg|Hpos].
  - unfold Count.fingerprint, Count.init.
    cbn [Count._n_bits Count._most_common]. rewrite Heven. cbn [Z.eqb].
    assert (Hw : Count.width n_bits < 0) by (unfold Count.width; lia).
    pose proof (for_letters_negative word most_common 0 _ Hw) as Hleft.
    destruct (Count.for_letters most_common word 0 (Count.width n_bits))
      as [fp left]. simpl in Hleft.
    destruct (Z.eqb_spec left 0) as [E|_]; [lia|].
    destruct (Z.ltb_spec left 0) as [_|L]; [reflexivity|lia].
  - apply fingerprint_even; [unfold Count.width; lia|exact Heven].
Qed.

(** X9: what [Count.fingerprint] does for every integer [n_bits].  An odd
    [n_bits] is first raised to the next even number.  Below -1 the call
    raises [ValueError], for the final shift is by a negative count;
    otherwise it returns the number whose base-4 digits are the fields of
    that even width. *)
Theorem Count_fingerprint_every_width
        (n_bits : Z) (most_common : list char) (word : str) :
  Count.fingerprint (Count.init n_bits most_common) word
  = if n_bits <? -1
    then Raise (ValueError "negative shift count")
    else Ok (Count.of_digits4
               (Count.fields (Count.width n_bits) most_common word)).
Proof. apply fingerprint_outcome. Qed.

(** X10: the fingerprint depends on the word only through the number of
    occurrences, modulo 4, of the most-common letters that the width has
    room for.  Two words that agree on these have the same fingerprint,
    whatever else they contain. *)
Theorem Count_fingerprint_counts_mod_4
        (n_bits : Z) (most_common : list char) (word word' : str) :
  (forall letter,
     In letter (firstn (Z.to_nat (Count.width n_bits / 2)) most_common) ->
     Count.count word letter mod 4 = Count.count word' letter mod 4) ->
  Count.fingerprint (Count.init n_bits most_common) word
  = Count.fingerprint (Count.init n_bits most_common) word'.
Proof.
  intros Hsame. rewrite !fingerprint_outcome.
  destruct (n_bits <? -1); [reflexivity|]. f_equal. f_equal.
  unfold Count.fields. f_equal. apply map_ext_in. intros letter Hin.
  rewrite <- !count_occurrences. exact (Hsame letter Hin).
Qed.

End CountWidths.

Lemma Count_fingerprint_counts_mod_4_witness :
  (forall letter,
     In letter (firstn (Z.to_nat (Count.width 4 / 2)) (lit "etaoin")) ->
     (Count.count (lit "teeeee") letter mod 4
      = Count.count (lit "extra") letter mod 4)%Z)
  /\ Count.fingerprint (Count.init 4 (lit "etaoin")) (lit "teeeee")
     = Count.fingerprint (Count.init 4 (lit "etaoin")) (lit "extra").
Proof.
  assert (H : forall letter,
     In letter (firstn (Z.to_nat (Count.width 4 / 2)) (lit "etaoin")) ->
     (Count.count (lit "teeeee") letter mod 4
      = Count.count (lit "extra") letter mod 4)%Z).
  { intros letter Hin. simpl in Hin.
    destruct Hin as [<-|[<-|[]]]; reflexivity. }
  split; [exact H|].
  exact (Count_fingerprint_counts_mod_4 4 (lit "etaoin")
           (lit "teeeee") (lit "extra") H).
Defined.

Section CountFields.

Local Open Scope Z_scope.

(** X11: anagrams have the same fingerprint: reordering the characters
    of the word changes nothing, whatever the width and the letters. *)
Theorem Count_fingerprint_anagram
        (n_bits : Z) (most_common : list char) (word word' : str) :
  Permutation word word' ->
  Count.fingerprint (Count.init n_bits most_common) word
  = Count.fingerprint (Count.init n_bits most_common) word'.
Proof.
  intros Hperm. rewrite !fingerprint_outcome.
  destruct (n_bits <? -1); [reflexivity|]. f_equal. f_equal.
  unfold Count.fields. f_equal. apply map_ext. intros letter.
  rewrite <- !count_occurrences. unfold Count.count.
  rewrite (proj1 (Permutation_count_occ N.eq_dec word word') Hperm letter).
  reflexivity.
Qed.

Lemma field_at_nil (word : str) (i : nat) : Count.field_at [] word i = 0.
Proof. unfold Count.field_at. destruct i; reflexivity. Qed.

Lemma fields_nat_seq (word : str) (most_common : list char) :
  forall k : nat,
    map (fun letter => Count.occurrences word letter mod 4)
        (firstn k most_common)
    ++ repeat 0 (k - length (firstn k most_common))
    = map (Count.field_at most_common word) (seq 0 k).
Proof.
  induction most_common as [|letter mc IH]; intros k.
  - rewrite firstn_nil. simpl. rewrite Nat.sub_0_r.
    generalize 0%nat. induction k as [|k IHk]; intros a; simpl;
      [reflexivity|].
    rewrite field_at_nil. f_equal. apply IHk.
  - destruct k as [|k]; [reflexivity|].
    rewrite firstn_cons. cbn [map length app seq Nat.sub].
    f_equal. rewrite IH, <- seq_shift, map_map. reflexivity.
Qed.

Lemma fields_seq (m : Z) (most_common : list char) (word : str) :
  Count.fields m most_common word
  = map (Count.field_at most_common word) (seq 0 (Z.to_nat (m / 2))).
Proof. apply fields_nat_seq. Qed.

Lemma of_digits4_snoc (ds : list Z) (d : Z) :
  Count.of_digits4 (ds ++ [d]) = 4 * Count.of_digits4 ds + d.
Proof. unfold Count.of_digits4. rewrite fold_left_app. reflexivity. Qed.

(** Reading a base-4 digit back. *)
Lemma of_digits4_digit (ds : list Z) :
  Forall (fun d => 0 <= d < 4) ds ->
  forall i : nat,
    (i < length ds)%nat ->
    (Count.of_digits4 ds / 4 ^ Z.of_nat (length ds - 1 - i)) mod 4
    = nth i ds 0.
Proof.
  induction ds as [|d ds IH] using rev_ind; intros Hall i Hi.
  - simpl in Hi. lia.
  - apply Forall_app in Hall as [Hds Hd]. inversion Hd as [|? ? Hd0 _]; subst.
    rewrite length_app in *. simpl length in *. rewrite of_digits4_snoc.
    destruct (Nat.eq_dec i (length ds)) as [->|Hne].
    + replace (length ds + 1 - 1 - length ds)%nat with 0%nat by lia.
      simpl Z.pow. rewrite Z.div_1_r.
      rewrite app_nth2, Nat.sub_diag by lia. simpl nth.
      replace (4 * Count.of_digits4 ds + d)
        with (d + Count.of_digits4 ds * 4) by lia.
      rewrite Z_mod_plus_full. apply Z.mod_small. exact Hd0.
    + rewrite app_nth1 by lia.
      replace (length ds + 1 - 1 - i)%nat
        with (S (length ds - 1 - i)) by lia.
      rewrite Nat2Z.inj_succ, Z.pow_succ_r by lia.
      rewrite <- Z.div_div by lia.
      replace ((4 * Count.of_digits4 ds + d) / 4) with (Count.of_digits4 ds).
      * apply IH; [exact Hds|lia].
      * apply (Z.div_unique _ 4 _ d); lia.
Qed.

Lemma nth_map_seq (g : nat -> Z) (k i : nat) :
  (i < k)%nat -> nth i (map g (seq 0 k)) 0 = g i.
Proof.
  intros Hi.
  rewrite (nth_indep _ 0 (g 0%nat)) by (rewrite length_map, length_seq; lia).
  rewrite map_nth, seq_nth by lia. reflexivity.
Qed.

(** X12: the fields can be read back.  For an even [n_bits >= 0] and a
    position [i < n_bits / 2], the two bits of the fingerprint at
    [n_bits - 2 * (i + 1)] hold the number of occurrences, modulo 4, of the
    [i]-th most common letter, and 0 when the list has no [i]-th letter. *)
Theorem Count_fingerprint_read_field
        (n_bits : Z) (most_common : list char) (word : str) (i : nat) :
  0 <= n_bits ->
  n_bits mod 2 = 0 ->
  Z.of_nat i < n_bits / 2 ->
  exists fp,
    Count.fingerprint (Count.init n_bits most_common) word = Ok fp
    /\ (fp / 2 ^ (n_bits - 2 * (Z.of_nat i + 1))) mod 4
       = Count.field_at most_common word i.
Proof.
  intros Hpos Heven Hi.
  rewrite (fingerprint_even n_bits most_common word Hpos Heven).
  eexists. split; [reflexivity|].
  pose proof (of_digits4_digit _ (fields_range n_bits most_common word) i)
    as Hdigit.
  rewrite fields_length in Hdigit.
  assert (Hlt : (i < Z.to_nat (n_bits / 2))%nat) by lia.
  specialize (Hdigit Hlt).
  rewrite fields_seq, nth_map_seq in Hdigit by exact Hlt.
  rewrite <- fields_seq in Hdigit. rewrite <- Hdigit. f_equal. f_equal.
  pose proof (Z.div_mod n_bits 2 ltac:(lia)) as Hd.
  replace (n_bits - 2 * (Z.of_nat i + 1))
    with (2 * Z.of_nat (Z.to_nat (n_bits / 2) - 1 - i)) by lia.
  rewrite Z.pow_mul_r by lia. reflexivity.
Qed.

(** X13: a narrower fingerprint is a prefix of a wider one.  For an even
    [n_bits >= 0] the fingerprint of [n_bits] bits is the fingerprint of
    [n_bits + 2] bits without its two low-order bits. *)
Theorem Count_fingerprint_prefix
        (n_bits : Z) (most_common : list char) (word : str) :
  0 <= n_bits ->
  n_bits mod 2 = 0 ->
  exists narrow wide,
    Count.fingerprint (Count.init n_bits most_common) word = Ok narrow
    /\ Count.fingerprint (Count.init (n_bits + 2) most_common) word = Ok wide
    /\ narrow = Z.shiftr wide 2.
Proof.
  intros Hpos Heven.
  assert (Heven2 : (n_bits + 2) mod 2 = 0).
  { replace (n_bits + 2) with (n_bits + 1 * 2) by lia.
    rewrite Z_mod_plus_full. exact Heven. }
  rewrite (fingerprint_even n_bits most_common word Hpos Heven).
  rewrite (fingerprint_even (n_bits + 2) most_common word
             ltac:(lia) Heven2).
  eexists. eexists. split; [reflexivity|]. split; [reflexivity|].
  rewrite !fields_seq.
  replace ((n_bits + 2) / 2) with (n_bits / 2 + 1)
    by (replace (n_bits + 2) with (n_bits + 1 * 2) by lia;
        rewrite Z.div_add by lia; reflexivity).
  rewrite Z2Nat.inj_add by (try apply Z.div_pos; lia).
  change (Z.to_nat 1) with 1%nat. rewrite Nat.add_1_r, seq_S, map_app.
  cbn [map]. rewrite of_digits4_snoc, Z.shiftr_div_pow2 by lia.
  change (2 ^ 2) with 4.
  set (d := Count.field_at most_common word (0 + Z.to_nat (n_bits / 2))).
  assert (Hd : 0 <= d < 4).
  { unfold d, Count.field_at.
    destruct (nth_error most_common _); [apply Z.mod_pos_bound|]; lia. }
  apply (Z.div_unique _ 4 _ d); lia.
Qed.

End CountFields.

Section CountClaim.

Local Open Scope Z_scope.

(** C10: for an even, non-negative [n_bits], [Count.fingerprint] returns
    an integer [fp] with [0 <= fp < 2 ^ n_bits].  Read in base 4, most
    significant digit first, [fp] has [n_bits / 2] digits: one for each of
    the first [n_bits / 2] letters of the most-common list, in the order of
    that list, equal to the number of occurrences of the letter in the word
    modulo 4, followed by zeros when the list is shorter than
    [n_bits / 2].  Digit by digit: the two bits of [fp] at
    [n_bits - 2 * (i + 1)] are the number of characters of the word equal
    to the [i]-th letter, modulo 4, and 0 where the list has no [i]-th
    letter. *)
Theorem Count_fingerprint_fields
        (n_bits : Z) (most_common : list char) (word : str) :
  0 <= n_bits ->
  n_bits mod 2 = 0 ->
  exists fp,
    Count.fingerprint (Count.init n_bits most_common) word = Ok fp
    /\ 0 <= fp < 2 ^ n_bits
    /\ fp = Count.of_digits4 (Count.fields n_bits most_common word)
    /\ length (Count.fields n_bits most_common word)
       = Z.to_nat (n_bits / 2)
    /\ Forall (fun d => 0 <= d < 4)
         (Count.fields n_bits most_common word)
    /\ forall i : nat,
         Z.of_nat i < n_bits / 2 ->
         (fp / 2 ^ (n_bits - 2 * (Z.of_nat i + 1))) mod 4
         = match nth_error most_common i with
           | Some letter =>
               Z.of_nat
                 (length (filter (fun c => (c =? letter)%N) word)) mod 4
           | None => 0
           end.
Proof.
  intros Hpos Heven.
  set (k := Z.to_nat (n_bits / 2)).
  assert (Hn : n_bits = 2 * Z.of_nat k).
  { unfold k. rewrite Z2Nat.id by (apply Z.div_pos; lia).
    pose proof (Z.div_mod n_bits 2 ltac:(lia)). lia. }
  eexists. split; [exact (fingerprint_even n_bits most_common word Hpos Heven)|].
  split; [|split; [reflexivity|split; [|split]]].
  - pose proof (fold_step_bound _ (fields_range n_bits most_common word)
                  0 0%nat ltac:(simpl; lia)) as Hb.
    rewrite fields_length in Hb. fold k in Hb. simpl Nat.add in Hb.
    unfold Count.of_digits4.
    rewrite Hn at 3. rewrite Z.pow_mul_r by lia. exact Hb.
  - apply fields_length.
  - apply fields_range.
  - intros i Hi.
    pose proof (of_digits4_digit _ (fields_range n_bits most_common word) i)
      as Hdigit.
    rewrite fields_length in Hdigit. fold k in Hdigit.
    assert (Hlt : (i < k)%nat) by (unfold k; lia).
    specialize (Hdigit Hlt).
    rewrite fields_seq, nth_map_seq in Hdigit by exact Hlt.
    rewrite <- fields_seq in Hdigit.
    change (match nth_error most_common i with
            | Some letter =>
                Z.of_nat
                  (length (filter (fun c => (c =? letter)%N) word)) mod 4
            | None => 0
            end) with (Count.field_at most_common word i).
    rewrite <- Hdigit. f_equal. f_equal.
    replace (n_bits - 2 * (Z.of_nat i + 1))
      with (2 * Z.of_nat (k - 1 - i)) by lia.
    rewrite Z.pow_mul_r by lia. reflexivity.
Qed.

End CountClaim.

Lemma Count_fingerprint_fields_witness :
  (0 <= 16)%Z
  /\ (16 mod 2 = 0)%Z
  /\ (exists fp,
        Count.fingerprint (Count.init 16 (lit "etaoinshrdlcumwf"))
          (lit "entreatment") = Ok fp
        /\ (0 <= fp < 2 ^ 16)%Z
        /\ fp = Count.of_digits4
                  (Count.fields 16 (lit "etaoinshrdlcumwf")
                     (lit "entreatment"))
        /\ length (Count.fields 16 (lit "etaoinshrdlcumwf")
                     (lit "entreatment"))
           = Z.to_nat (16 / 2)
        /\ Forall (fun d => (0 <= d < 4)%Z)
             (Count.fields 16 (lit "etaoinshrdlcumwf") (lit "entreatment"))
        /\ forall i : nat,
             (Z.of_nat i < 16 / 2)%Z ->
             ((fp / 2 ^ (16 - 2 * (Z.of_nat i + 1))) mod 4
              = match nth_error (lit "etaoinshrdlcumwf") i with
                | Some letter =>
                    Z.of_nat
                      (length (filter (fun c => (c =? letter)%N)
                                 (lit "entreatment"))) mod 4
                | None => 0
                end)%Z)
  /\ Count.fingerprint (Count.init 16 (lit "etaoinshrdlcumwf"))
       (lit "entreatment") = Ok 62496%Z.
Proof.
  split; [lia|]. split; [reflexivity|]. split; [|reflexivity].
  apply (Count_fingerprint_fields 16 (lit "etaoinshrdlcumwf")
           (lit "entreatment")).
  - lia.
  - reflexivity.
Defined.

Lemma Count_fingerprint_anagram_witness :
  Permutation (lit "stressed") (lit "desserts")
  /\ Count.fingerprint (Count.init 16 (lit "etaoinshrdlcumwf"))
       (lit "stressed")
     = Count.fingerprint (Count.init 16 (lit "etaoinshrdlcumwf"))
         (lit "desserts").
Proof.
  assert (H : Permutation (lit "stressed") (lit "desserts"))
    by exact (Permutation_rev (lit "stressed")).
  split; [exact H|].
  exact (Count_fingerprint_anagram 16 (lit "etaoinshrdlcumwf")
           (lit "stressed") (lit "desserts") H).
Defined.

Lemma Count_fingerprint_read_field_witness :
  (0 <= 16)%Z
  /\ (16 mod 2 = 0)%Z
  /\ (Z.of_nat 7 < 16 / 2)%Z
  /\ exists fp,
       Count.fingerprint (Count.init 16 (lit "etaoinsh")) (lit "hat") = Ok fp
       /\ ((fp / 2 ^ (16 - 2 * (Z.of_nat 7 + 1))) mod 4
           = Count.field_at (lit "etaoinsh") (lit "hat") 7)%Z.
Proof.
  split; [lia|]. split; [reflexivity|]. split; [reflexivity|].
  apply (Count_fingerprint_read_field 16 (lit "etaoinsh") (lit "hat") 7);
    [lia|reflexivity|reflexivity].
Defined.

Lemma Count_fingerprint_prefix_witness :
  (0 <= 4)%Z
  /\ (4 mod 2 = 0)%Z
  /\ exists narrow wide,
       Count.fingerprint (Count.init 4 (lit "etaoin")) (lit "tea") = Ok narrow
       /\ Count.fingerprint (Count.init (4 + 2) (lit "etaoin")) (lit "tea")
          = Ok wide
       /\ narrow = Z.shiftr wide 2.
Proof.
  split; [lia|]. split; [reflexivity|].
  apply (Count_fingerprint_prefix 4 (lit "etaoin") (lit "tea"));
    [lia|reflexivity].
Defined.

(** ** [LegaliPyTokenizer.train_onsets] *)

(** X15: [train_onsets] raises what SyllabiPy's [getOnsets] raises and
    otherwise returns with the token state untouched.  With [append] false
    the onset list becomes the list [getOnsets] returned, so the initial
    onset [''] is dropped; with [append] true the new list holds every
    old and every new onset, nothing else, and each of them once, in
    whatever order the set is iterated ([set_iteration_keeps]: iterating
    over a set lists its elements, each once). *)
Theorem LegaliPy_train_onsets_outcome
        (threshold_t : Type) (lib : LegaliPy.syllabipy threshold_t)
        (set_iteration : list str -> list str)
        (self : LegaliPy.t) (text : str) (threshold : threshold_t)
        (clean append : bool)
        (set_iteration_keeps : forall l, Permutation (set_iteration l) l) :
  match LegaliPy.getOnsets lib text threshold clean with
  | Raise e =>
      LegaliPy.train_onsets (Some lib) set_iteration self text threshold
        clean append
      = Raise e
  | Ok new_onsets =>
      exists self',
        LegaliPy.train_onsets (Some lib) set_iteration self text threshold
          clean append
        = Ok self'
        /\ LegaliPy.base self' = LegaliPy.base self
        /\ if append
           then NoDup (LegaliPy._onsets self')
                /\ forall o,
                     In o (LegaliPy._onsets self')
                     <-> In o (LegaliPy._onsets self) \/ In o new_onsets
           else LegaliPy._onsets self' = new_onsets
  end.
Proof.
  unfold LegaliPy.train_onsets.
  destruct (LegaliPy.getOnsets lib text threshold clean) as [new|e];
    simpl; [|reflexivity].
  destruct append; eexists; (split; [reflexivity|]); simpl;
    (split; [reflexivity|]); [|reflexivity].
  unfold LegaliPy.list_set. split.
  - apply (Permutation_NoDup (Permutation_sym (set_iteration_keeps _))).
    apply NoDup_nodup.
  - intros o. split; intros Ho.
    + apply (Permutation_in _ (set_iteration_keeps _)) in Ho.
      apply nodup_In in Ho. apply in_app_iff in Ho. exact Ho.
    + apply (Permutation_in _ (Permutation_sym (set_iteration_keeps _))).
      apply nodup_In. apply in_app_iff. exact Ho.
Qed.

Lemma LegaliPy_train_onsets_outcome_witness :
  let lib : LegaliPy.syllabipy unit :=
    {| LegaliPy.getOnsets := fun _ _ _ => Ok [lit "st"; []; lit "tr"];
       LegaliPy.LegaliPy := fun string _ => Ok [string] |} in
  let self :=
    {| LegaliPy.base := Tokenizer.init Tokenizer.ScalerNone;
       LegaliPy._onsets := [ []; lit "tr" ] |} in
  (forall l : list str, Permutation (rev l) l)
  /\ exists self',
       LegaliPy.train_onsets (Some lib) (@rev str) self (lit "street tree")
         tt true true
       = Ok self'
       /\ LegaliPy.base self' = LegaliPy.base self
       /\ NoDup (LegaliPy._onsets self')
       /\ forall o,
            In o (LegaliPy._onsets self')
            <-> In o (LegaliPy._onsets self)
                \/ In o [lit "st"; []; lit "tr"].
Proof.
  intros lib self.
  assert (H : forall l : list str, Permutation (rev l) l)
    by (intros l; apply Permutation_sym, Permutation_rev).
  split; [exact H|].
  exact (LegaliPy_train_onsets_outcome unit lib (@rev str) self
           (lit "street tree") tt true true H).
Defined.

(** ** [NCDzlib.dist] *)

(** X16: [NCDzlib.dist] treats its two arguments alike.  It returns a
    number for [(src, tar)] exactly when it returns it for [(tar, src)],
    and it raises for the one order exactly when it raises for the other;
    the same holds of the wrapper [dist_ncd_zlib]. *)
Theorem NCDzlib_dist_symmetric `{PyFloat}
        (compress : NCDzlib.bytes -> Z -> result NCDzlib.bytes)
        (ncd : NCDzlib.t) (src tar : str) :
  (forall x,
     NCDzlib.dist compress ncd src tar = Ok x
     <-> NCDzlib.dist compress ncd tar src = Ok x)
  /\ ((exists e, NCDzlib.dist compress ncd src tar = Raise e)
      <-> (exists e, NCDzlib.dist compress ncd tar src = Raise e))
  /\ (forall x,
        NCDzlib.dist_ncd_zlib compress src tar = Ok x
        <-> NCDzlib.dist_ncd_zlib compress tar src = Ok x).
Proof.
  assert (Hswap : forall n a b x,
            NCDzlib.dist compress n a b = Ok x <->
            NCDzlib.dist compress n b a = Ok x)
    by (intros n a b x; split; apply NCDzlib_dist_swap).
  split; [apply Hswap|]. split; [|apply Hswap].
  split; intros [e He].
  - destruct (NCDzlib.dist compress ncd tar src) as [x|e'] eqn:E;
      [|exists e'; reflexivity].
    apply Hswap in E. congruence.
  - destruct (NCDzlib.dist compress ncd src tar) as [x|e'] eqn:E;
      [|exists e'; reflexivity].
    apply Hswap in E. congruence.
Qed.

Lemma encode_char_surrogate (c : char) :
  NCDzlib.encode_char c = None <-> NCDzlib.is_surrogate c = true.
Proof.
  unfold NCDzlib.encode_char, NCDzlib.is_surrogate.
  destruct (N.ltb_spec c 128); [|destruct (N.ltb_spec c 2048)].
  - split; [discriminate|]. intros E. apply andb_true_iff in E as [E _].
    apply N.leb_le in E. lia.
  - split; [discriminate|]. intros E. apply andb_true_iff in E as [E _].
    apply N.leb_le in E. lia.
  - destruct ((55296 <=? c)%N && (c <=? 57343)%N); [tauto|].
    destruct (c <? 65536)%N; split; discriminate.
Qed.

Lemma encode_from_surrogate (s : str) :
  forall pos,
    existsb NCDzlib.is_surrogate s = true ->
    exists p, NCDzlib.encode_from pos s = Raise (UnicodeEncodeError p).
Proof.
  induction s as [|c s IH]; intros pos Hs; simpl in Hs; [discriminate|].
  simpl. destruct (NCDzlib.encode_char c) as [bs|] eqn:Ec.
  - assert (Hc : NCDzlib.is_surrogate c = false).
    { destruct (NCDzlib.is_surrogate c) eqn:E; [|reflexivity].
      apply encode_char_surrogate in E. congruence. }
    rewrite Hc in Hs. simpl in Hs.
    destruct (IH (S pos) Hs) as (p & ->). exists p. reflexivity.
  - exists pos. reflexivity.
Qed.

Lemma encode_from_clean (s : str) :
  forall pos,
    existsb NCDzlib.is_surrogate s = false ->
    exists bs, NCDzlib.encode_from pos s = Ok bs.
Proof.
  induction s as [|c s IH]; intros pos Hs; simpl in Hs.
  - exists []. reflexivity.
  - apply orb_false_iff in Hs as [Hc Hs]. simpl.
    destruct (NCDzlib.encode_char c) as [bs|] eqn:Ec.
    + destruct (IH (S pos) Hs) as (tl & ->). eexists. reflexivity.
    + apply encode_char_surrogate in Ec. congruence.
Qed.

(** X17: two different strings of which one holds a surrogate code point
    cannot be compared: [NCDzlib.dist] raises [UnicodeEncodeError] before
    zlib is called, whatever zlib would do. *)
Theorem NCDzlib_dist_surrogate `{PyFloat}
        (compress : NCDzlib.bytes -> Z -> result NCDzlib.bytes)
        (ncd : NCDzlib.t) (src tar : str) :
  src <> tar ->
  existsb NCDzlib.is_surrogate (src ++ tar) = true ->
  exists p,
    NCDzlib.dist compress ncd src tar = Raise (UnicodeEncodeError p).
Proof.
  intros Hne Hs. unfold NCDzlib.dist.
  apply str_eqb_neq in Hne. rewrite Hne.
  rewrite existsb_app in Hs. unfold NCDzlib.encode_utf8.
  destruct (existsb NCDzlib.is_surrogate src) eqn:Hsrc.
  - destruct (encode_from_surrogate src 0 Hsrc) as (p & ->).
    exists p. reflexivity.
  - simpl in Hs. destruct (encode_from_clean src 0 Hsrc) as (bs & ->).
    destruct (encode_from_surrogate tar 0 Hs) as (p & ->).
    exists p. reflexivity.
Qed.

Lemma NCDzlib_dist_surrogate_witness :
  lit "a" <> [55357%N]
  /\ existsb NCDzlib.is_surrogate (lit "a" ++ [55357%N]) = true
  /\ exists p,
       @NCDzlib.dist exact_float (fun data _ => Ok data)
         (NCDzlib.init NCDzlib.Z_DEFAULT_COMPRESSION) (lit "a") [55357%N]
       = Raise (UnicodeEncodeError p).
Proof.
  assert (Hne : lit "a" <> [55357%N]) by discriminate.
  split; [exact Hne|]. split; [reflexivity|].
  exact (@NCDzlib_dist_surrogate exact_float (fun data _ => Ok data)
           (NCDzlib.init NCDzlib.Z_DEFAULT_COMPRESSION)
           (lit "a") [55357%N] Hne eq_refl).
Defined.

(** ** Where a syllable may begin *)

Lemma leading_vowels_rest (s : str) :
  match snd (SyllableRule.leading_vowels s) with
  | [] => True
  | k :: _ => Syllable.consonant k = true
  end.
Proof.
  induction s as [|c s IH]; simpl; [exact I|].
  destruct (SyllableRule.is_vowel c) eqn:Hc.
  - destruct (SyllableRule.leading_vowels s). exact IH.
  - simpl. unfold Syllable.consonant. rewrite Hc. reflexivity.
Qed.

Lemma first_syllable_rest (w syll rest : str) :
  SyllableRule.first_syllable SyllableRule.ends_in_vowel w
  = Some (syll, rest) ->
  hd_error syll = hd_error w
  /\ match rest with
     | [] => True
     | k :: _ => Syllable.consonant k = true
     end.
Proof.
  unfold SyllableRule.first_syllable. destruct w as [|c w]; [discriminate|].
  pose proof (leading_vowels_rest w) as Hrest.
  destruct (SyllableRule.leading_vowels w) as [vs rest1]. simpl in Hrest.
  destruct rest1 as [|k rest2].
  - intros E. inversion E. split; [reflexivity|exact I].
  - destruct (SyllableRule.ends_in_vowel (c :: vs)
              && SyllableRule.coda_follows (k :: rest2)) eqn:Hcoda;
      intros E; inversion E as [[Hsyll Hr]]; (split; [reflexivity|]).
    + apply andb_true_iff in Hcoda as [_ Hcoda]. simpl in Hcoda.
      rewrite <- Hr. destruct rest2 as [|k2 rest3]; [exact I|].
      apply andb_true_iff in Hcoda as [_ Hk2]. exact Hk2.
    + exact Hrest.
Qed.

Lemma splits_later_consonants (w : str) (l : list str) :
  SyllableRule.splits SyllableRule.ends_in_vowel w l ->
  match w with
  | [] => True
  | k :: _ => Syllable.consonant k = true
  end ->
  Forall (fun tok => exists c r, tok = c :: r /\ Syllable.consonant c = true) l.
Proof.
  induction 1 as [|w syll rest l Hfirst _ IH]; intros Hw; constructor.
  - destruct w as [|k w]; [discriminate Hfirst|].
    apply first_syllable_rest in Hfirst as [Hhd _].
    destruct syll as [|c r]; [discriminate Hhd|].
    inversion Hhd; subst. exists k, r. split; [reflexivity|exact Hw].
  - apply IH. apply first_syllable_rest in Hfirst as [_ H]. exact H.
Qed.

(** X8: only the first token of [SAPSTokenizer.tokenize] can begin with a
    vowel: every later token begins with a consonant. *)
Theorem SAPS_later_tokens_begin_with_consonant
        (self : Tokenizer.t) (string : str) :
  exists t,
    SAPS.tokenize self string = Some t
    /\ Forall (fun tok =>
                 exists c r, tok = c :: r /\ Syllable.consonant c = true)
         (tl (Tokenizer.get_list t)).
Proof.
  destruct (tokenize_spec self string) as (l & Ht & Hs & _).
  eexists. split; [exact Ht|]. simpl.
  inversion Hs as [|w syll rest l' Hfirst Hrest]; subst; simpl;
    [constructor|].
  apply (splits_later_consonants rest l' Hrest).
  apply first_syllable_rest in Hfirst as [_ H]. exact H.
Qed.

(** ** Words without any of the letters *)

Lemma of_digits4_zeros (ds : list Z) :
  Forall (fun d => d = 0%Z) ds -> Count.of_digits4 ds = 0%Z.
Proof.
  unfold Count.of_digits4. induction 1 as [|d ds Hd _ IH]; [reflexivity|].
  simpl. rewrite Hd. exact IH.
Qed.

Lemma in_firstn {A : Type} (n : nat) (l : list A) (x : A) :
  In x (firstn n l) -> In x l.
Proof.
  intros H. rewrite <- (firstn_skipn n l). apply in_or_app. left. exact H.
Qed.

(** X14: a word that contains none of the most-common letters has
    fingerprint 0, for every [n_bits >= -1]: all such words, the empty
    word among them, collide. *)
Theorem Count_fingerprint_no_common_letter
        (n_bits : Z) (most_common : list char) (word : str) :
  (-1 <= n_bits)%Z ->
  (forall letter, In letter most_common -> ~ In letter word) ->
  Count.fingerprint (Count.init n_bits most_common) word = Ok 0%Z.
Proof.
  intros Hn Hnone. rewrite fingerprint_outcome.
  destruct (Z.ltb_spec n_bits (-1)) as [L|_]; [lia|]. f_equal.
  apply of_digits4_zeros. unfold Count.fields. apply Forall_app. split.
  - apply Forall_forall. intros d Hd.
    apply in_map_iff in Hd as (letter & <- & Hin).
    apply in_firstn in Hin. rewrite <- count_occurrences. unfold Count.count.
    rewrite (proj1 (count_occ_not_In N.eq_dec word letter)
               (Hnone letter Hin)).
    reflexivity.
  - apply Forall_forall. intros d Hd. apply repeat_spec in Hd. exact Hd.
Qed.

Lemma Count_fingerprint_no_common_letter_witness :
  (-1 <= 7)%Z
  /\ (forall letter, In letter (lit "etaoin") -> ~ In letter (lit "flux"))
  /\ Count.fingerprint (Count.init 7 (lit "etaoin")) (lit "flux") = Ok 0%Z.
Proof.
  assert (H : forall letter,
            In letter (lit "etaoin") -> ~ In letter (lit "flux")).
  { intros letter Hin Hw. simpl in Hin, Hw.
    repeat (destruct Hin as [<-|Hin]; [
      repeat (destruct Hw as [Hw|Hw]; [discriminate Hw|]); exact Hw|]).
    exact Hin. }
  split; [lia|]. split; [exact H|].
  exact (Count_fingerprint_no_common_letter 7 (lit "etaoin") (lit "flux")
           ltac:(lia) H).
Defined.
